(** * Squarified treemap layout (packages/shared/src/treemap.ts)

    A shallow embedding of the layout engine: [worst], [normalize],
    [layoutRow], [squarify] and [treemap], and the properties stated
    for them.

    Numbers.  A JavaScript [number] is modelled by the type [num]: an exact
    rational, or one of the three special values [+Infinity], [-Infinity]
    and [NaN].  The arithmetic follows IEEE-754 on the special values
    (division by zero gives an infinity or [NaN], [0 * Infinity] is [NaN],
    every comparison with [NaN] is false); on finite values it is exact:
    rounding is not modelled, and the sign of zero is not tracked (a zero
    divisor behaves as [+0]). *)

From Stdlib Require Import QArith Qcanon Qround List Bool Arith Lia Lqa Ascii
  String Permutation Sorted Wellfounded.
From Equations Require Import Equations.
Import ListNotations.

Set Implicit Arguments.

(** ** Numbers *)

Module Num.

Local Open Scope Qc_scope.

Inductive num : Type :=
| Fin (q : Qc)
| PInf
| NInf
| NaN.

Definition zero : num := Fin 0.

Definition Qcltb (a b : Qc) : bool :=
  match a ?= b with Lt => true | _ => false end.

Definition Qceqb (a b : Qc) : bool :=
  match a ?= b with Eq => true | _ => false end.

(** [a + b] *)
Definition add (a b : num) : num :=
  match a, b with
  | NaN, _ | _, NaN => NaN
  | Fin x, Fin y => Fin (x + y)
  | PInf, NInf | NInf, PInf => NaN
  | PInf, _ | _, PInf => PInf
  | NInf, _ | _, NInf => NInf
  end.

Definition neg (a : num) : num :=
  match a with
  | Fin x => Fin (- x)
  | PInf => NInf
  | NInf => PInf
  | NaN => NaN
  end.

(** [a - b] *)
Definition sub (a b : num) : num := add a (neg b).

(** The infinity carrying the sign of the finite value [x]; [NaN] at zero. *)
Definition signed_inf (x : Qc) : num :=
  if Qcltb 0 x then PInf else if Qcltb x 0 then NInf else NaN.

(** [a * b] *)
Definition mul (a b : num) : num :=
  match a, b with
  | NaN, _ | _, NaN => NaN
  | Fin x, Fin y => Fin (x * y)
  | Fin x, PInf | PInf, Fin x => signed_inf x
  | Fin x, NInf | NInf, Fin x => signed_inf (- x)
  | PInf, PInf | NInf, NInf => PInf
  | PInf, NInf | NInf, PInf => NInf
  end.

(** [a / b] *)
Definition div (a b : num) : num :=
  match a, b with
  | NaN, _ | _, NaN => NaN
  | Fin x, Fin y => if Qceqb y 0 then signed_inf x else Fin (x / y)
  | Fin _, PInf | Fin _, NInf => Fin 0
  | PInf, Fin y => if Qcltb y 0 then NInf else PInf
  | NInf, Fin y => if Qcltb y 0 then PInf else NInf
  | PInf, _ | NInf, _ => NaN
  end.

(** [a < b] *)
Definition lt (a b : num) : bool :=
  match a, b with
  | NaN, _ | _, NaN => false
  | Fin x, Fin y => Qcltb x y
  | _, NInf => false
  | NInf, _ => true
  | PInf, _ => false
  | Fin _, PInf => true
  end.

(** [a > b] *)
Definition gt (a b : num) : bool := lt b a.

(** [Math.max(a, b)] *)
Definition max (a b : num) : num :=
  match a, b with
  | NaN, _ | _, NaN => NaN
  | _, _ => if lt a b then b else a
  end.

(** [Math.min(a, b)] *)
Definition min (a b : num) : num :=
  match a, b with
  | NaN, _ | _, NaN => NaN
  | _, _ => if lt b a then b else a
  end.

(** [Math.max(...l)]: [-Infinity] when there is no argument. *)
Definition max_list (l : list num) : num := fold_left max l NInf.

(** [Math.min(...l)]: [+Infinity] when there is no argument. *)
Definition min_list (l : list num) : num := fold_left min l PInf.

(** Decidable equality of numbers, by comparison of the rationals. *)
Definition eqb (a b : num) : bool :=
  match a, b with
  | Fin x, Fin y => Qceqb x y
  | PInf, PInf | NInf, NInf | NaN, NaN => true
  | _, _ => false
  end.

(** The number written as the integer literal [z]. *)
Definition of_Z (z : Z) : num := Fin (Q2Qc (inject_Z z)).

(** The number equal to the fraction [q]. *)
Definition of_Q (q : Q) : num := Fin (Q2Qc q).

(** The number is finite: neither an infinity nor [NaN]. *)
Definition is_finite (a : num) : bool :=
  match a with Fin _ => true | _ => false end.

(** [a <= b] *)
Definition le (a b : num) : bool :=
  match a, b with
  | NaN, _ | _, NaN => false
  | _, _ => negb (lt b a)
  end.

(** [Math.abs(a)] *)
Definition abs (a : num) : num :=
  match a with
  | Fin x => if Qcltb x 0 then Fin (- x) else a
  | PInf | NInf => PInf
  | NaN => NaN
  end.

End Num.

Import Num.

Declare Scope num_scope.
Delimit Scope num_scope with num.
Bind Scope num_scope with num.
Infix "+" := Num.add : num_scope.
Infix "-" := Num.sub : num_scope.
Infix "*" := Num.mul : num_scope.
Infix "/" := Num.div : num_scope.
Infix "<?" := Num.lt : num_scope.
Infix ">?" := Num.gt (at level 70) : num_scope.

(** ** Data model *)

(** [interface TreemapItem]; [D] is the type of the optional payload. *)
Record TreemapItem (D : Type) : Type := mkItem {
  id : string;
  weight : num;
  data : option D
}.

(** [interface TreemapRect] *)
Record TreemapRect (D : Type) : Type := mkRect {
  rid : string;
  x : num;
  y : num;
  width : num;
  height : num;
  rdata : option D
}.

(** [interface Container] *)
Record Container : Type := mkContainer {
  cx : num;
  cy : num;
  cwidth : num;
  cheight : num
}.

Arguments mkItem {D} _ _ _.
Arguments mkRect {D} _ _ _ _ _ _.

Local Open Scope num_scope.

Section Treemap.

Context {D : Type}.

Local Abbreviation Item := (TreemapItem D).
Local Abbreviation Rect := (TreemapRect D).

(** [row.reduce((acc, item) => acc + item.weight, 0)] *)
Definition sum_weights (row : list Item) : num :=
  fold_left (fun acc item => acc + weight item) row zero.

(** [function worst(row, width)] *)
Definition worst (row : list Item) (width : num) : num :=
  let sum := sum_weights row in
  let rowMax := max_list (map (@weight D) row) in
  let rowMin := min_list (map (@weight D) row) in
  Num.max ((width * width * rowMax) / (sum * sum))
          ((sum * sum) / (width * width * rowMin)).

(** [function normalize(items, area)] *)
Definition normalize (items : list Item) (area : num) : list Item :=
  let totalWeight := sum_weights items in
  map (fun item => mkItem (id item) ((weight item / totalWeight) * area) (data item))
      items.

(** One iteration of the [for (const item of row)] loop of [layoutRow];
    the loop state is the array [rects] and the variable [offsetX]. *)
Definition layoutRow_body (cy0 rowHeight : num)
    (st : list Rect * num) (item : Item) : list Rect * num :=
  let (rects, offsetX) := st in
  let rectWidth := weight item / rowHeight in
  (rects ++ [mkRect (id item) offsetX cy0 rectWidth rowHeight (data item)],
   offsetX + rectWidth).

(** [function layoutRow(row, width, container)], returning
    [(rects, remaining)]. *)
Definition layoutRow (row : list Item) (width : num) (container : Container)
    : list Rect * Container :=
  let sum := sum_weights row in
  let rowHeight := sum / width in
  let rects :=
    fst (fold_left (layoutRow_body (cy container) rowHeight) row
                   ([], cx container)) in
  let remaining :=
    mkContainer (cx container) (cy container + rowHeight)
                (cwidth container) (cheight container - rowHeight) in
  (rects, remaining).

(** The test [row.length === 0]. *)
Definition is_empty {A : Type} (l : list A) : bool :=
  match l with [] => true | _ => false end.

(** The arguments of one call of [squarify]. *)
Record State : Type := mkState {
  st_items : list Item;
  st_row : list Item;
  st_container : Container;
  st_rects : list Rect
}.

(** The body of [squarify] for one call: either the value it returns, or the
    arguments of the recursive call it returns the value of (each of the
    three recursive calls of the source is in tail position). *)
Definition squarify_step (s : State) : list Rect + State :=
  let container := st_container s in
  let rects := st_rects s in
  let row := st_row s in
  match st_items s with
  | [] =>
      if negb (is_empty row) then
        let width := Num.min (cwidth container) (cheight container) in
        let (rowRects, _) := layoutRow row width container in
        inl (rects ++ rowRects)
      else inl rects
  | item :: remaining =>
      let width := Num.min (cwidth container) (cheight container) in
      if is_empty row then
        inr (mkState remaining [item] container rects)
      else
        let rowWithItem := row ++ [item] in
        let worstCurrent := worst row width in
        let worstWithItem := worst rowWithItem width in
        if (worstWithItem <? worstCurrent) || is_empty row then
          inr (mkState remaining rowWithItem container rects)
        else
          let (rowRects, newContainer) := layoutRow row width container in
          inr (mkState (item :: remaining) [] newContainer (rects ++ rowRects))
  end.

(** The quantity that decreases at every recursive call of [squarify]: a call
    either consumes one unplaced item or flushes a non-empty open row. *)
Definition measure (items row : list Item) : nat :=
  2 * List.length items + (if is_empty row then 0 else 1).

(** [function squarify(items, row, container, rects)] *)
Equations? squarify (items row : list Item) (container : Container)
    (rects : list Rect) : list Rect by wf (measure items row) Nat.lt :=
  squarify [] [] container rects := rects;
  squarify [] (r :: row') container rects :=
    let width := Num.min (cwidth container) (cheight container) in
    rects ++ fst (layoutRow (r :: row') width container);
  squarify (item :: remaining) [] container rects :=
    squarify remaining [item] container rects;
  squarify (item :: remaining) (r :: row') container rects :=
    let row := r :: row' in
    let width := Num.min (cwidth container) (cheight container) in
    let rowWithItem := row ++ [item] in
    let worstCurrent := worst row width in
    let worstWithItem := worst rowWithItem width in
    if (worstWithItem <? worstCurrent) || is_empty row then
      squarify remaining rowWithItem container rects
    else
      squarify (item :: remaining) []
               (snd (layoutRow row width container))
               (rects ++ fst (layoutRow row width container)).
Proof.
  all: unfold measure; cbn [is_empty List.length]; try lia.
  destruct (row' ++ [item]); cbn; lia.
Qed.

(** The comparator [(a, b) => b.weight - a.weight]. *)
Definition by_weight_desc (a b : Item) : num := weight b - weight a.

(** [Array.prototype.sort] is stable; it is modelled by stable insertion:
    [a] is placed after [b] when the comparator is positive at [(a, b)]. *)
Fixpoint sort_insert (cmp : Item -> Item -> num) (a : Item) (l : list Item)
    : list Item :=
  match l with
  | [] => [a]
  | b :: l' => if cmp a b >? zero then b :: sort_insert cmp a l' else a :: l
  end.

Definition sort (cmp : Item -> Item -> num) (l : list Item) : list Item :=
  fold_right (sort_insert cmp) [] l.

(** [export function treemap(items, containerWidth, containerHeight)] *)
Definition treemap (items : list Item) (containerWidth containerHeight : num)
    : list Rect :=
  if is_empty items then []
  else
    let validItems := filter (fun item => weight item >? zero) items in
    if is_empty validItems then []
    else
      let area := containerWidth * containerHeight in
      let normalized := normalize validItems area in
      let sorted := sort by_weight_desc normalized in
      let container := mkContainer zero zero containerWidth containerHeight in
      squarify sorted [] container [].

End Treemap.

(** ** Measurements on the output, as the test suite takes them *)

Section Measures.

Context {D : Type}.

(** [r.width * r.height] *)
Definition rect_area (r : TreemapRect D) : num := width r * height r.

(** [rects.reduce((sum, r) => sum + r.width * r.height, 0)] *)
Definition total_area (rects : list (TreemapRect D)) : num :=
  fold_left (fun sum r => sum + width r * height r) rects zero.

(** The rectangle lies within the region [[0,W] x [0,H]]. *)
Definition inside (W H : num) (r : TreemapRect D) : bool :=
  Num.le zero (x r) && Num.le zero (y r) &&
  Num.le (x r + width r) W && Num.le (y r + height r) H.

(** The point [(px, py)] lies in the closed region of the rectangle. *)
Definition covers (px py : num) (r : TreemapRect D) : bool :=
  Num.le (x r) px && Num.le px (x r + width r) &&
  Num.le (y r) py && Num.le py (y r + height r).

(** What identifies the source item of a rectangle, and of an item. *)
Definition rect_key (r : TreemapRect D) : string * option D := (rid r, rdata r).
Definition item_key (i : TreemapItem D) : string * option D := (id i, data i).

End Measures.

(** ** Concrete inputs *)

(** An item without payload, of integer weight. *)
Definition item (name : string) (w : Z) : TreemapItem unit :=
  mkItem name (of_Z w) None.

(** A rectangle without payload. *)
Definition rect (name : string) (x y w h : num) : TreemapRect unit :=
  mkRect name x y w h None.

Definition rect_eqb (r1 r2 : TreemapRect unit) : bool :=
  String.eqb (rid r1) (rid r2) &&
  Num.eqb (x r1) (x r2) && Num.eqb (y r1) (y r2) &&
  Num.eqb (width r1) (width r2) && Num.eqb (height r1) (height r2) &&
  match rdata r1, rdata r2 with
  | None, None | Some _, Some _ => true
  | _, _ => false
  end.

Fixpoint rects_eqb (l1 l2 : list (TreemapRect unit)) : bool :=
  match l1, l2 with
  | [], [] => true
  | r1 :: l1', r2 :: l2' => rect_eqb r1 r2 && rects_eqb l1' l2'
  | _, _ => false
  end.

(** ** The recursion of [squarify] as a loop *)

Section Run.

Context {D : Type}.

(** [squarify], called on the arguments [s]. *)
Definition squarify_at (s : State (D:=D)) : list (TreemapRect D) :=
  squarify (st_items s) (st_row s) (st_container s) (st_rects s).

(** The call with arguments [s'] is the recursive call made by the call with
    arguments [s]. *)
Definition squarify_call (s' s : State (D:=D)) : Prop :=
  squarify_step s = inr s'.

(** The measure of the arguments of a call. *)
Definition st_measure (s : State (D:=D)) : nat :=
  measure (st_items s) (st_row s).

(** At most [fuel] successive calls of [squarify], from the arguments [s]. *)
Fixpoint squarify_run (fuel : nat) (s : State (D:=D))
    : option (list (TreemapRect D)) :=
  match fuel with
  | O => None
  | S fuel' =>
      match squarify_step s with
      | inl result => Some result
      | inr s' => squarify_run fuel' s'
      end
  end.

(** [treemap], with at most [fuel] successive calls of [squarify]. *)
Definition treemap_run (fuel : nat) (items : list (TreemapItem D))
    (containerWidth containerHeight : num) : option (list (TreemapRect D)) :=
  if is_empty items then Some []
  else
    let validItems := filter (fun item => weight item >? zero) items in
    if is_empty validItems then Some []
    else
      let area := containerWidth * containerHeight in
      let normalized := normalize validItems area in
      let sorted := sort by_weight_desc normalized in
      let container := mkContainer zero zero containerWidth containerHeight in
      squarify_run fuel (mkState sorted [] container []).

End Run.

(** ** Exact sums, maxima and minima of rationals *)

(** The sum of the rationals [ws]. *)
Definition qsum (ws : list Qc) : Qc := fold_right Qcplus (Q2Qc 0) ws.

(** The greater and the lesser of two rationals. *)
Definition Qcmax (a b : Qc) : Qc := if Qcltb a b then b else a.

Definition Qcmin (a b : Qc) : Qc := if Qcltb b a then b else a.

(** [M] is the greatest element of [ws]; [m] is its least element. *)
Definition is_max (M : Qc) (ws : list Qc) : Prop :=
  In M ws /\ Forall (fun w => (w <= M)%Qc) ws.

Definition is_min (m : Qc) (ws : list Qc) : Prop :=
  In m ws /\ Forall (fun w => (m <= w)%Qc) ws.

(** ** Geometry of a row *)

Section RowGeometry.

Context {D : Type}.

(** The rectangles follow one another along x from [x0]: each starts where
    the previous one ends. *)
Fixpoint abutting (x0 : num) (rects : list (TreemapRect D)) : Prop :=
  match rects with
  | [] => True
  | r :: rects' => x r = x0 /\ abutting (x0 + width r) rects'
  end.

(** The sum of the widths of the rectangles. *)
Definition total_width (rects : list (TreemapRect D)) : num :=
  fold_left (fun sum r => sum + width r) rects zero.

(** The item with its weight multiplied by [k]. *)
Definition scale_weight (k : num) (i : TreemapItem D) : TreemapItem D :=
  mkItem (id i) (weight i * k) (data i).

(** The item [a] weighs at least as much as the item [b]. *)
Definition weight_ge (a b : TreemapItem D) : Prop :=
  Num.le (weight b) (weight a) = true.

End RowGeometry.

(** ** [priorityToWeight] and the board component *)

(** The type ['high' | 'medium' | 'low']. *)
Inductive Priority : Type := high | medium | low.

(** The type [{ high: number; medium: number; low: number }]. *)
Record PriorityWeights : Type := mkWeights {
  w_high : num;
  w_medium : num;
  w_low : num
}.

(** The default value [{ high: 3, medium: 2, low: 1 }] of the parameter
    [weights]. *)
Definition default_weights : PriorityWeights :=
  mkWeights (of_Z 3) (of_Z 2) (of_Z 1).

(** [export function priorityToWeight(priority, weights = ...)]; [None] is the
    call that leaves [weights] out. *)
Definition priorityToWeight (priority : Priority)
    (weights : option PriorityWeights) : num :=
  let weights := match weights with Some w => w | None => default_weights end in
  match priority with
  | high => w_high weights
  | medium => w_medium weights
  | low => w_low weights
  end.

Section Board.

(** The type [Task] is declared outside these sources; the board reads its
    fields [id] and [priority]. *)
Context {Task : Type} (task_id : Task -> string)
        (task_priority : Task -> Priority).

(** The [items] that [TreemapBoard] builds from its [tasks]. *)
Definition board_items (tasks : list Task) : list (TreemapItem Task) :=
  map (fun task =>
         mkItem (task_id task) (priorityToWeight (task_priority task) None)
                (Some task))
      tasks.

(** [boardWidth] and [boardHeight] of [TreemapBoard], from the width of the
    window. *)
Definition boardWidth (screenWidth : num) : num := screenWidth - of_Z 32.
Definition boardHeight (screenWidth : num) : num :=
  boardWidth screenWidth * of_Q (3 # 2).

(** The [tiles] of [TreemapBoard]. *)
Definition board_tiles (tasks : list Task) (screenWidth : num)
    : list (TreemapRect Task) :=
  treemap (board_items tasks) (boardWidth screenWidth) (boardHeight screenWidth).

End Board.

(** ** Utility functions of the shared package *)

(** [a === b] on numbers. *)
Definition strict_eq (a b : num) : bool :=
  match a, b with
  | Fin x, Fin y => Qceqb x y
  | PInf, PInf | NInf, NInf => true
  | _, _ => false
  end.

(** [export function calculateProgress(completed, total)] *)
Definition calculateProgress (completed total : num) : num :=
  if strict_eq total zero then zero
  else Num.min (of_Z 1) (Num.max zero (completed / total)).

(** The result of the abstract operation [ToIntegerOrInfinity]. *)
Inductive int_or_inf : Type :=
| Int (z : Z)
| PosInf
| NegInf.

(** [ToIntegerOrInfinity(a)]: [NaN] gives [0], a finite number is truncated
    toward zero. *)
Definition to_integer_or_infinity (a : num) : int_or_inf :=
  match a with
  | NaN => Int 0
  | PInf => PosInf
  | NInf => NegInf
  | Fin q => Int (Z.quot (Qnum (this q)) (Zpos (Qden (this q))))
  end.

(** Strings: a character of a Rocq [string] stands for one UTF-16 code unit
    of the JavaScript string, so that lengths and indices agree. *)

(** [text.length], a number. *)
Definition js_length (text : string) : num :=
  of_Z (Z.of_nat (String.length text)).

(** [text.slice(0, e)] *)
Definition slice_from_start (text : string) (e : num) : string :=
  let len := Z.of_nat (String.length text) in
  let to :=
    match to_integer_or_infinity e with
    | NegInf => 0%Z
    | PosInf => len
    | Int z => if (z <? 0)%Z then Z.max (len + z) 0 else Z.min z len
    end in
  substring 0 (Z.to_nat to) text.

(** [export function truncate(text, maxLength)] *)
Definition truncate (text : string) (maxLength : num) : string :=
  if Num.le (js_length text) maxLength then text
  else (slice_from_start text (maxLength - of_Z 3) ++ "...")%string.

(** ** [anonymizeDisplayName] of the leaderboard function *)

(** [!name] on a string: true of the empty string only. *)
Definition is_empty_string (name : string) : bool :=
  match name with EmptyString => true | _ => false end.

(** [s.repeat(n)] *)
Fixpoint repeat_string (s : string) (n : nat) : string :=
  match n with
  | O => EmptyString
  | S n' => (s ++ repeat_string s n')%string
  end.

(** [name.charAt(0)] *)
Definition charAt0 (name : string) : string := substring 0 1 name.

(** [function anonymizeDisplayName(name)]; the empty string is the only
    string for which [!name] holds. *)
Definition anonymizeDisplayName (name : string) : string :=
  if is_empty_string name || (String.length name <? 2)%nat then "User***"%string
  else (charAt0 name ++ repeat_string "*" (Nat.min (String.length name - 1) 5))%string.

(** * Properties *)

(** ** Numbers *)

Lemma Qcltb_lt (a b : Qc) : Qcltb a b = true <-> (a < b)%Qc.
Proof.
  unfold Qcltb. rewrite Qclt_alt. destruct (a ?= b)%Qc; split; congruence.
Qed.

Lemma Qceqb_eq (a b : Qc) : Qceqb a b = true <-> a = b.
Proof.
  unfold Qceqb. rewrite Qceq_alt. destruct (a ?= b)%Qc; split; congruence.
Qed.

Lemma Qcltb_irrefl (a : Qc) : Qcltb a a = false.
Proof.
  destruct (Qcltb a a) eqn:E; [|reflexivity].
  apply Qcltb_lt in E. exfalso. revert E. apply Qcle_not_lt, Qcle_refl.
Qed.

Lemma num_eqb_eq (a b : num) : Num.eqb a b = true -> a = b.
Proof.
  destruct a, b; cbn; try congruence.
  intros E. apply Qceqb_eq in E. congruence.
Qed.

Lemma num_lt_irrefl (a : num) : (a <? a) = false.
Proof. destruct a; cbn; auto using Qcltb_irrefl. Qed.

Lemma rect_eqb_eq (r1 r2 : TreemapRect unit) : rect_eqb r1 r2 = true -> r1 = r2.
Proof.
  destruct r1 as [i1 x1 y1 w1 h1 d1], r2 as [i2 x2 y2 w2 h2 d2].
  unfold rect_eqb; cbn.
  rewrite !andb_true_iff. intros [[[[[Hi Hx] Hy] Hw] Hh] Hd].
  apply String.eqb_eq in Hi.
  apply num_eqb_eq in Hx, Hy, Hw, Hh. subst.
  destruct d1 as [[]|], d2 as [[]|]; congruence.
Qed.

Lemma rects_eqb_eq (l1 l2 : list (TreemapRect unit)) :
  rects_eqb l1 l2 = true -> l1 = l2.
Proof.
  revert l2. induction l1 as [|r1 l1 IH]; intros [|r2 l2]; cbn; try congruence.
  rewrite andb_true_iff. intros [H1 H2].
  apply rect_eqb_eq in H1. apply IH in H2. congruence.
Qed.

(** Evaluation of [treemap] at a concrete input. *)
Ltac eval_rects := apply rects_eqb_eq; vm_compute; reflexivity.
Ltac eval_num := apply num_eqb_eq; vm_compute; reflexivity.

(** ** Evaluations *)

(** C5 (Scenario A).  Weights [3, 2, 1] in a [600 x 800] container: three
    rectangles are returned, but the third one has width [0] and height
    [+Infinity]; the areas are [240000], [160000] and [NaN], and their sum is
    [NaN], not [480000]. *)
Theorem scenario_A_last_rectangle_degenerate :
  let rects := treemap [item "1" 3; item "2" 2; item "3" 1] (of_Z 600) (of_Z 800) in
  rects = [rect "1" (of_Z 0) (of_Z 0) (of_Z 600) (of_Z 400);
           rect "2" (of_Z 0) (of_Z 400) (of_Z 400) (of_Z 400);
           rect "3" (of_Z 0) (of_Z 800) (of_Z 0) PInf] /\
  map rect_area rects = [of_Z 240000; of_Z 160000; NaN] /\
  total_area rects = NaN /\
  forallb (fun r => (width r >? zero) && (height r >? zero)) rects = false.
Proof.
  cbv zeta.
  assert (E : treemap [item "1" 3; item "2" 2; item "3" 1] (of_Z 600) (of_Z 800)
              = [rect "1" (of_Z 0) (of_Z 0) (of_Z 600) (of_Z 400);
                 rect "2" (of_Z 0) (of_Z 400) (of_Z 400) (of_Z 400);
                 rect "3" (of_Z 0) (of_Z 800) (of_Z 0) PInf]) by eval_rects.
  rewrite E. split; [reflexivity|].
  split; [|split].
  - cbn [map]. repeat (f_equal; try eval_num).
  - eval_num.
  - vm_compute. reflexivity.
Qed.

(** C1.  Two items of equal weight in a [2 x 2] container: the second
    rectangle is [1] wide and [2] high with its origin at [(0, 1)], so it
    leaves the container, and the point [(3/2, 3/2)] of the container is
    covered by no rectangle. *)
Theorem equal_pair_leaves_container :
  let rects := treemap [item "a" 1; item "b" 1] (of_Z 2) (of_Z 2) in
  rects = [rect "a" (of_Z 0) (of_Z 0) (of_Z 2) (of_Z 1);
           rect "b" (of_Z 0) (of_Z 1) (of_Z 1) (of_Z 2)] /\
  forallb (inside (of_Z 2) (of_Z 2)) rects = false /\
  existsb (covers (of_Q (3#2)) (of_Q (3#2))) rects = false.
Proof.
  cbv zeta.
  assert (E : treemap [item "a" 1; item "b" 1] (of_Z 2) (of_Z 2)
              = [rect "a" (of_Z 0) (of_Z 0) (of_Z 2) (of_Z 1);
                 rect "b" (of_Z 0) (of_Z 1) (of_Z 1) (of_Z 2)]) by eval_rects.
  rewrite E. repeat split; vm_compute; reflexivity.
Qed.

(** C2.  Four items of equal weight in a [400 x 400] container (the input of
    the test "should fill the entire container area"): the fourth rectangle
    has width [0] and height [+Infinity], the sum of the areas is [NaN], and
    the test [Math.abs(totalArea - containerArea) < 1] is false. *)
Theorem four_equal_items_area_is_nan :
  let rects := treemap [item "1" 1; item "2" 1; item "3" 1; item "4" 1]
                       (of_Z 400) (of_Z 400) in
  rects = [rect "1" (of_Z 0) (of_Z 0) (of_Z 200) (of_Z 200);
           rect "2" (of_Z 200) (of_Z 0) (of_Z 200) (of_Z 200);
           rect "3" (of_Z 0) (of_Z 200) (of_Z 200) (of_Z 200);
           rect "4" (of_Z 0) (of_Z 400) (of_Z 0) PInf] /\
  total_area rects = NaN /\
  (Num.abs (total_area rects - of_Z 400 * of_Z 400) <? of_Z 1) = false.
Proof.
  cbv zeta.
  assert (E : treemap [item "1" 1; item "2" 1; item "3" 1; item "4" 1]
                      (of_Z 400) (of_Z 400)
              = [rect "1" (of_Z 0) (of_Z 0) (of_Z 200) (of_Z 200);
                 rect "2" (of_Z 200) (of_Z 0) (of_Z 200) (of_Z 200);
                 rect "3" (of_Z 0) (of_Z 200) (of_Z 200) (of_Z 200);
                 rect "4" (of_Z 0) (of_Z 400) (of_Z 0) PInf]) by eval_rects.
  rewrite E. split; [reflexivity|].
  split; [eval_num | vm_compute; reflexivity].
Qed.

(** C3.  Weights [2, 1, 1] in a [2 x 2] container: the shares of the total
    weight are [1/2], [1/4] and [1/4], but the third rectangle has width [0]
    and height [+Infinity], and its share of the container area is [NaN]. *)
Theorem third_item_share_is_nan :
  let items := [item "a" 2; item "b" 1; item "c" 1] in
  let rects := treemap items (of_Z 2) (of_Z 2) in
  map (fun i => weight i / sum_weights items) items
    = [of_Q (1#2); of_Q (1#4); of_Q (1#4)] /\
  rects = [rect "a" (of_Z 0) (of_Z 0) (of_Z 2) (of_Z 1);
           rect "b" (of_Z 0) (of_Z 1) (of_Z 1) (of_Z 1);
           rect "c" (of_Z 0) (of_Z 2) (of_Z 0) PInf] /\
  map (fun r => rect_area r / (of_Z 2 * of_Z 2)) rects
    = [of_Q (1#2); of_Q (1#4); NaN].
Proof.
  cbv zeta.
  assert (E : treemap [item "a" 2; item "b" 1; item "c" 1] (of_Z 2) (of_Z 2)
              = [rect "a" (of_Z 0) (of_Z 0) (of_Z 2) (of_Z 1);
                 rect "b" (of_Z 0) (of_Z 1) (of_Z 1) (of_Z 1);
                 rect "c" (of_Z 0) (of_Z 2) (of_Z 0) PInf]) by eval_rects.
  rewrite E. split; [|split; [reflexivity|]].
  - cbn [map]. repeat (f_equal; try eval_num).
  - cbn [map]. repeat (f_equal; try eval_num).
Qed.

(** C4.  One item in a [300 x 400] container is given the whole container,
    but in a [400 x 300] container it is given a rectangle [300] wide and
    [400] high, which is not the container. *)
Theorem single_item_landscape_container :
  treemap [item "1" 1] (of_Z 300) (of_Z 400)
    = [rect "1" (of_Z 0) (of_Z 0) (of_Z 300) (of_Z 400)] /\
  treemap [item "1" 1] (of_Z 400) (of_Z 300)
    = [rect "1" (of_Z 0) (of_Z 0) (of_Z 300) (of_Z 400)] /\
  treemap [item "1" 1] (of_Z 400) (of_Z 300)
    <> [rect "1" (of_Z 0) (of_Z 0) (of_Z 400) (of_Z 300)].
Proof.
  assert (E : treemap [item "1" 1] (of_Z 400) (of_Z 300)
              = [rect "1" (of_Z 0) (of_Z 0) (of_Z 300) (of_Z 400)]) by eval_rects.
  split; [eval_rects|]. split; [exact E|].
  rewrite E. intros H.
  assert (W : of_Z 300 = of_Z 400) by (unfold rect in H; congruence).
  apply (f_equal (fun n => match n with Fin q => this q | _ => 0%Q end)) in W.
  vm_compute in W. discriminate.
Qed.

(** ** The recursion of [squarify] *)

Section Recursion.

Context {D : Type}.

Implicit Types (s : State (D:=D)) (items row : list (TreemapItem D)).

(** [squarify] returns what its body returns, or the value of the recursive
    call its body makes. *)
Lemma squarify_at_step s :
  squarify_at s =
  match squarify_step s with
  | inl result => result
  | inr s' => squarify_at s'
  end.
Proof.
  destruct s as [items row c rects].
  unfold squarify_at, squarify_step; cbn [st_items st_row st_container st_rects].
  destruct items as [|i items], row as [|r row]; simp squarify; cbn; try reflexivity.
  destruct (_ || _); reflexivity.
Qed.

(** Every recursive call consumes one unplaced item or flushes a non-empty
    open row. *)
Lemma squarify_call_kind s s' :
  squarify_call s' s ->
  (exists i, st_items s = i :: st_items s') \/
  (st_row s <> [] /\ st_row s' = [] /\ st_items s' = st_items s).
Proof.
  unfold squarify_call, squarify_step.
  destruct s as [items row c rects]; cbn [st_items st_row st_container st_rects].
  destruct items as [|i items].
  - destruct (negb (is_empty row)); cbn; discriminate.
  - destruct row as [|r row]; cbn [is_empty].
    + intros [= <-]. left. eexists. reflexivity.
    + destruct (_ || _).
      * intros [= <-]. left. eexists. reflexivity.
      * cbn. intros [= <-]. right. cbn. repeat split. discriminate.
Qed.

Lemma squarify_call_decreases s s' :
  squarify_call s' s -> (st_measure s' < st_measure s)%nat.
Proof.
  intros H. destruct (squarify_call_kind H) as [[i Hi]|(Hr & Hr' & Hi)];
    unfold st_measure, measure.
  - rewrite Hi. cbn [List.length].
    destruct (is_empty (st_row s')), (is_empty (st_row s)); lia.
  - rewrite Hr', Hi. destruct (st_row s); [congruence|]. cbn. lia.
Qed.

Lemma squarify_run_enough fuel s :
  (st_measure s < fuel)%nat -> squarify_run fuel s = Some (squarify_at s).
Proof.
  revert s. induction fuel as [|fuel IH]; intros s Hm; [lia|].
  cbn [squarify_run]. rewrite (squarify_at_step s).
  destruct (squarify_step s) as [result|s'] eqn:E; [reflexivity|].
  apply IH. apply squarify_call_decreases in E. lia.
Qed.

(** Induction along the recursive calls of [squarify]. *)
Lemma squarify_at_ind (P : State (D:=D) -> list (TreemapRect D) -> Prop) :
  (forall s result, squarify_step s = inl result -> P s result) ->
  (forall s s' result, squarify_step s = inr s' -> P s' result -> P s result) ->
  forall s, P s (squarify_at s).
Proof.
  intros Hret Hcall s.
  induction s as [s IH] using (well_founded_induction
    (well_founded_lt_compat _ st_measure squarify_call
       (fun s' s => @squarify_call_decreases s s'))).
  rewrite squarify_at_step.
  destruct (squarify_step s) as [result|s'] eqn:E.
  - apply Hret, E.
  - apply (Hcall _ _ _ E). apply IH, E.
Qed.

End Recursion.

(** ** Which items are laid out *)

Section Filtering.

Context {D : Type}.

Implicit Types (items row : list (TreemapItem D)) (rects : list (TreemapRect D)).

Lemma layoutRow_loop_keys cy0 rowHeight row rects offsetX :
  map rect_key (fst (fold_left (layoutRow_body cy0 rowHeight) row (rects, offsetX)))
  = map rect_key rects ++ map item_key row.
Proof.
  revert rects offsetX. induction row as [|i row IH]; intros rects offsetX; cbn.
  - now rewrite app_nil_r.
  - rewrite IH, map_app, <- app_assoc. reflexivity.
Qed.

Lemma layoutRow_keys row side container :
  map rect_key (fst (layoutRow row side container)) = map item_key row.
Proof. unfold layoutRow; cbn [fst]. now rewrite layoutRow_loop_keys. Qed.

(** The rectangles come out in the order of the items: first those already
    placed, then the open row, then the unplaced items. *)
Lemma squarify_keys items row container rects :
  map rect_key (squarify items row container rects)
  = map rect_key rects ++ map item_key row ++ map item_key items.
Proof.
  change (squarify items row container rects)
    with (squarify_at (mkState items row container rects)).
  change items with (st_items (mkState items row container rects)) at 2.
  change row with (st_row (mkState items row container rects)) at 2.
  change rects with (st_rects (mkState items row container rects)) at 2.
  generalize (mkState items row container rects).
  apply (squarify_at_ind (fun s result => map rect_key result =
    map rect_key (st_rects s) ++ map item_key (st_row s) ++ map item_key (st_items s))).
  - intros [its rw c rs]; unfold squarify_step;
      cbn [st_items st_row st_container st_rects].
    destruct its as [|i its].
    + destruct rw as [|r rw]; cbn [is_empty negb].
      * intros result [= <-]. cbn. now rewrite app_nil_r.
      * destruct (layoutRow _ _ _) as [rowRects c'] eqn:E.
        intros result [= <-].
        rewrite map_app, app_nil_r. f_equal.
        change rowRects with (fst (rowRects, c')). rewrite <- E.
        apply layoutRow_keys.
    + destruct rw; cbn [is_empty]; [discriminate|].
      destruct (_ || _); [discriminate|].
      destruct (layoutRow _ _ _); discriminate.
  - intros [its rw c rs] s' result; unfold squarify_step;
      cbn [st_items st_row st_container st_rects].
    destruct its as [|i its].
    + destruct (negb _); [destruct (layoutRow _ _ _)|]; discriminate.
    + destruct rw as [|r rw]; cbn [is_empty].
      * intros [= <-]. cbn. trivial.
      * destruct (_ || _).
        -- intros [= <-]; cbn [st_items st_row st_container st_rects].
           intros ->. f_equal. cbn [map app]. f_equal.
           rewrite map_app, <- app_assoc. reflexivity.
        -- destruct (layoutRow _ _ _) as [rowRects c'] eqn:E.
           intros [= <-]; cbn [st_items st_row st_container st_rects].
           intros ->. rewrite map_app, <- app_assoc. f_equal.
           change rowRects with (fst (rowRects, c')). rewrite <- E.
           rewrite layoutRow_keys. reflexivity.
Qed.

Lemma normalize_keys items area :
  map item_key (normalize items area) = map item_key items.
Proof. unfold normalize. rewrite map_map. reflexivity. Qed.

Lemma sort_insert_perm cmp (a : TreemapItem D) l :
  Permutation (sort_insert cmp a l) (a :: l).
Proof.
  induction l as [|b l IH]; cbn [sort_insert]; [reflexivity|].
  destruct (Num.gt (cmp a b) zero); [|reflexivity].
  rewrite IH. apply perm_swap.
Qed.

Lemma sort_perm cmp items : Permutation (sort cmp items) items.
Proof.
  induction items as [|a l IH]; cbn; [reflexivity|].
  rewrite sort_insert_perm. now constructor.
Qed.

Lemma treemap_keys items W H :
  Permutation (map rect_key (treemap items W H))
              (map item_key (filter (fun i => weight i >? zero) items)).
Proof.
  unfold treemap.
  destruct items as [|i0 items0]; [reflexivity|]. cbn [is_empty].
  set (items := i0 :: items0).
  destruct (filter _ items) as [|v valid] eqn:E; [reflexivity|]. cbn [is_empty].
  rewrite squarify_keys, <- (normalize_keys (v :: valid) (W * H)).
  exact (Permutation_map item_key (sort_perm _ _)).
Qed.

End Filtering.

(** C10.  The recursion of [squarify] is well-founded: every recursive call
    consumes one unplaced item or flushes a non-empty open row, no infinite
    chain of recursive calls exists, a call with [n] unplaced items returns
    within [2 n + 2] calls, with the value of [squarify], and so [treemap] on
    [n] items returns when [squarify] is allowed [2 n + 2] calls. *)
Theorem squarify_terminates (D : Type) :
  (forall s s' : State (D:=D), squarify_call s' s ->
     (exists i, st_items s = i :: st_items s') \/
     (st_row s <> [] /\ st_row s' = [] /\ st_items s' = st_items s)) /\
  well_founded (squarify_call (D:=D)) /\
  (forall (items row : list (TreemapItem D)) container rects,
     squarify_run (2 * List.length items + 2)
                  (mkState items row container rects)
     = Some (squarify items row container rects)) /\
  (forall (items : list (TreemapItem D)) (W H : num),
     treemap_run (2 * List.length items + 2) items W H
     = Some (treemap items W H)).
Proof.
  split; [exact (@squarify_call_kind D)|]. split; [|split].
  - apply (well_founded_lt_compat _ st_measure).
    intros s' s. apply squarify_call_decreases.
  - intros items row c rects.
    rewrite squarify_run_enough; [reflexivity|].
    unfold st_measure, measure; cbn [st_items st_row].
    destruct (is_empty row); lia.
  - intros items W H. unfold treemap_run, treemap.
    destruct (is_empty items); [reflexivity|].
    destruct (is_empty (filter _ items)); [reflexivity|].
    rewrite squarify_run_enough; [reflexivity|].
    unfold st_measure, measure; cbn [st_items st_row is_empty].
    rewrite (Permutation_length (sort_perm _ _)).
    unfold normalize. rewrite length_map.
    pose proof (filter_length_le (fun i => weight i >? zero) items). lia.
Qed.

(** C8.  [treemap] is a total function.  Its rectangles are, up to order,
    those of the items whose weight is greater than zero, one for each: the
    other items have none, the output is as long as the list of positive
    items, and it is empty when no weight is positive.  For the weights
    [3, 0, 2] it has two rectangles, in every container. *)
Theorem treemap_lays_out_positive_items :
  (forall (D : Type) (items : list (TreemapItem D)) (W H : num),
     let valid := filter (fun i => weight i >? zero) items in
     Permutation (map rect_key (treemap items W H)) (map item_key valid) /\
     List.length (treemap items W H) = List.length valid /\
     (valid = [] -> treemap items W H = [])) /\
  (forall (D : Type) (W H : num), treemap (D:=D) [] W H = []) /\
  (forall W H : num,
     List.length (treemap [item "1" 3; item "2" 0; item "3" 2] W H) = 2%nat).
Proof.
  assert (Hlen : forall (D : Type) (items : list (TreemapItem D)) W H,
            List.length (treemap items W H)
            = List.length (filter (fun i => weight i >? zero) items)).
  { intros D items W H.
    rewrite <- (length_map rect_key), <- (length_map item_key).
    apply Permutation_length, treemap_keys. }
  split; [|split].
  - intros D items W H valid. split; [apply treemap_keys|].
    split; [apply Hlen|].
    intros E. specialize (Hlen D items W H). fold valid in Hlen.
    rewrite E in Hlen. now destruct (treemap items W H).
  - reflexivity.
  - intros W H. rewrite Hlen. reflexivity.
Qed.

(** ** Exact arithmetic on finite weights *)

Section Finite.

Context {D : Type}.

Implicit Types (items row : list (TreemapItem D)) (ws : list Qc).

Local Open Scope Qc_scope.

Lemma Qcplus_pos (a b : Qc) : 0 <= a -> 0 < b -> 0 < a + b.
Proof.
  intros Ha Hb. apply Qclt_le_trans with (0 + b).
  - now rewrite Qcplus_0_l.
  - apply Qcplus_le_compat; [assumption | apply Qcle_refl].
Qed.

Lemma qsum_nonneg ws : Forall (fun w => 0 < w) ws -> 0 <= qsum ws.
Proof.
  induction 1 as [|w ws Hw _ IH]; unfold qsum; cbn [fold_right];
    [apply Qcle_refl|].
  rewrite Qcplus_comm. apply Qclt_le_weak, Qcplus_pos; assumption.
Qed.

Lemma qsum_pos ws : ws <> [] -> Forall (fun w => 0 < w) ws -> 0 < qsum ws.
Proof.
  intros Hne H. destruct H as [|w ws Hw Hws]; [congruence|].
  unfold qsum; cbn [fold_right].
  rewrite Qcplus_comm. apply Qcplus_pos; [apply qsum_nonneg|]; assumption.
Qed.

Lemma sum_weights_loop items ws (a : Qc) :
  map (@weight D) items = map Fin ws ->
  fold_left (fun acc i => (acc + weight i)%num) items (Fin a) = Fin (a + qsum ws).
Proof.
  revert ws a. induction items as [|i items IH]; intros [|w ws] a;
    cbn [map fold_left]; try discriminate.
  - intros _. f_equal. unfold qsum; cbn [fold_right]. ring.
  - intros [= Hw Hws]. rewrite Hw. cbn [Num.add].
    rewrite (IH _ _ Hws). f_equal. unfold qsum; cbn [fold_right]. ring.
Qed.

Lemma sum_weights_finite items ws :
  map (@weight D) items = map Fin ws -> sum_weights items = Fin (qsum ws).
Proof.
  intros H. unfold sum_weights, zero. rewrite (@sum_weights_loop items ws _ H).
  f_equal. ring.
Qed.

Lemma div_finite (a b : Qc) : b <> 0 -> (Fin a / Fin b)%num = Fin (a / b).
Proof.
  intros Hb. cbn. destruct (Qceqb b 0) eqn:E; [|reflexivity].
  apply Qceqb_eq in E. contradiction.
Qed.

Lemma normalize_weights items ws (A : Qc) :
  map (@weight D) items = map Fin ws -> qsum ws <> 0 ->
  map (@weight D) (normalize items (Fin A))
  = map Fin (map (fun w => w / qsum ws * A) ws).
Proof.
  intros H HT. unfold normalize. rewrite (@sum_weights_finite items ws H).
  revert HT. generalize (qsum ws) as T. intros T HT.
  revert ws H. induction items as [|i items IH]; intros [|w ws]; cbn [map];
    try discriminate; [reflexivity|].
  intros [= Hw Hws]. cbn [weight]. rewrite Hw. rewrite div_finite by assumption.
  cbn [Num.mul]. f_equal. now apply IH.
Qed.

Lemma qsum_scale ws (c : Qc) : qsum (map (fun w => w * c) ws) = qsum ws * c.
Proof.
  unfold qsum. induction ws as [|w ws IH]; cbn [map fold_right]; [ring|].
  rewrite IH. ring.
Qed.

(** C9.  For a non-empty list of items of finite positive weights and a
    finite area, [normalize] keeps the length, gives the [k]-th item the
    weight [items[k].weight / totalWeight * area], and the sum of the rescaled
    weights is the area (in exact arithmetic). *)
Theorem normalize_rescales_to_area items ws (A : Qc) :
  items <> [] ->
  map (@weight D) items = map Fin ws ->
  Forall (fun w => 0 < w) ws ->
  List.length (normalize items (Fin A)) = List.length items /\
  (forall k i, nth_error items k = Some i ->
     nth_error (normalize items (Fin A)) k
     = Some (mkItem (id i) (weight i / sum_weights items * Fin A)%num (data i))) /\
  sum_weights items = Fin (qsum ws) /\
  map (@weight D) (normalize items (Fin A))
  = map (fun w => Fin (w / qsum ws * A)) ws /\
  sum_weights (normalize items (Fin A)) = Fin A.
Proof.
  intros Hne Hws Hpos.
  assert (HT : qsum ws <> 0).
  { assert (0 < qsum ws) as Hlt.
    { apply qsum_pos; [|assumption]. intros ->. destruct items; [congruence|discriminate]. }
    intros E. rewrite E in Hlt. revert Hlt. apply Qcle_not_lt, Qcle_refl. }
  pose proof (@normalize_weights items ws A Hws HT) as Hn.
  split; [|split; [|split; [|split]]].
  - unfold normalize. apply length_map.
  - intros k i Hk. unfold normalize. rewrite nth_error_map, Hk. reflexivity.
  - apply sum_weights_finite, Hws.
  - rewrite Hn, map_map. reflexivity.
  - rewrite (@sum_weights_finite _ _ Hn). f_equal.
    replace (map (fun w => w / qsum ws * A) ws)
      with (map (fun w => w * (A / qsum ws)) ws).
    + rewrite qsum_scale. field. assumption.
    + apply map_ext. intros w. field. assumption.
Qed.

Lemma max_finite (a b : Qc) : Num.max (Fin a) (Fin b) = Fin (Qcmax a b).
Proof. cbn. unfold Qcmax. now destruct (Qcltb a b). Qed.

Lemma min_finite (a b : Qc) : Num.min (Fin a) (Fin b) = Fin (Qcmin a b).
Proof. cbn. unfold Qcmin. now destruct (Qcltb b a). Qed.

Lemma Qcltb_ge (a b : Qc) : Qcltb a b = false -> b <= a.
Proof.
  intros E. apply Qcnot_lt_le. intros H. apply Qcltb_lt in H. congruence.
Qed.

(** The loop of [Math.max] over finite numbers, from a finite value. *)
Lemma max_loop_finite ws (a : Qc) :
  exists r, fold_left Num.max (map Fin ws) (Fin a) = Fin r /\
            (r = a \/ In r ws) /\ a <= r /\ Forall (fun w => w <= r) ws.
Proof.
  revert a. induction ws as [|w ws IH]; intros a; cbn [map fold_left].
  - exists a. repeat split; auto using Qcle_refl.
  - rewrite max_finite. unfold Qcmax.
    destruct (Qcltb a w) eqn:E.
    + destruct (IH w) as (r & Hr & Hin & Hle & Hall). exists r.
      apply Qcltb_lt in E. repeat split; auto.
      * right. destruct Hin as [->|Hin]; [now left | now right].
      * apply Qclt_le_weak. eapply Qclt_le_trans; eauto.
    + destruct (IH a) as (r & Hr & Hin & Hle & Hall). exists r.
      apply Qcltb_ge in E. repeat split; auto.
      * destruct Hin as [->|Hin]; [now left | right; now right].
      * constructor; [|assumption]. eapply Qcle_trans; eauto.
Qed.

(** The loop of [Math.min] over finite numbers, from a finite value. *)
Lemma min_loop_finite ws (a : Qc) :
  exists r, fold_left Num.min (map Fin ws) (Fin a) = Fin r /\
            (r = a \/ In r ws) /\ r <= a /\ Forall (fun w => r <= w) ws.
Proof.
  revert a. induction ws as [|w ws IH]; intros a; cbn [map fold_left].
  - exists a. repeat split; auto using Qcle_refl.
  - rewrite min_finite. unfold Qcmin.
    destruct (Qcltb w a) eqn:E.
    + destruct (IH w) as (r & Hr & Hin & Hle & Hall). exists r.
      apply Qcltb_lt in E. repeat split; auto.
      * right. destruct Hin as [->|Hin]; [now left | now right].
      * apply Qclt_le_weak. eapply Qcle_lt_trans; eauto.
    + destruct (IH a) as (r & Hr & Hin & Hle & Hall). exists r.
      apply Qcltb_ge in E. repeat split; auto.
      * destruct Hin as [->|Hin]; [now left | right; now right].
      * constructor; [|assumption]. eapply Qcle_trans; eauto.
Qed.

Lemma max_list_finite ws M : is_max M ws -> max_list (map Fin ws) = Fin M.
Proof.
  intros [Hin Hall]. destruct ws as [|w ws]; [contradiction|].
  unfold max_list. cbn [map fold_left].
  change (Num.max NInf (Fin w)) with (Fin w).
  destruct (max_loop_finite ws w) as (r & -> & Hr & Hle & Hub). f_equal.
  apply Qcle_antisym.
  - rewrite Forall_forall in Hall. apply Hall.
    destruct Hr as [->|Hr]; [now left | now right].
  - destruct Hin as [<-|Hin]; [assumption|].
    rewrite Forall_forall in Hub. now apply Hub.
Qed.

Lemma min_list_finite ws m : is_min m ws -> min_list (map Fin ws) = Fin m.
Proof.
  intros [Hin Hall]. destruct ws as [|w ws]; [contradiction|].
  unfold min_list. cbn [map fold_left].
  change (Num.min PInf (Fin w)) with (Fin w).
  destruct (min_loop_finite ws w) as (r & -> & Hr & Hle & Hlb). f_equal.
  apply Qcle_antisym.
  - destruct Hin as [<-|Hin]; [assumption|].
    rewrite Forall_forall in Hlb. now apply Hlb.
  - rewrite Forall_forall in Hall. apply Hall.
    destruct Hr as [->|Hr]; [now left | now right].
Qed.

(** C7.  For a non-empty row of finite weights, of sum [S], greatest weight
    [M] and least weight [m], and every side, [worst] is the greater of
    [side^2 * M / S^2] and [S^2 / (side^2 * m)]; for positive weights and a
    finite side other than zero both are rational numbers. *)
Theorem worst_is_max_of_two_ratios row ws (M m : Qc) :
  map (@weight D) row = map Fin ws ->
  is_max M ws ->
  is_min m ws ->
  let S := qsum ws in
  (forall side : num,
     worst row side
     = Num.max ((side * side * Fin M) / (Fin S * Fin S))%num
               ((Fin S * Fin S) / (side * side * Fin m))%num) /\
  (Forall (fun w => 0 < w) ws ->
   forall s : Qc, s <> 0 ->
     worst row (Fin s)
     = Fin (Qcmax (s * s * M / (S * S)) (S * S / (s * s * m)))).
Proof.
  intros Hws HM Hm S.
  assert (Hworst : forall side : num,
     worst row side
     = Num.max ((side * side * Fin M) / (Fin S * Fin S))%num
               ((Fin S * Fin S) / (side * side * Fin m))%num).
  { intros side. unfold worst.
    rewrite (@sum_weights_finite row ws Hws), Hws.
    rewrite (max_list_finite HM), (min_list_finite Hm). reflexivity. }
  split; [exact Hworst|].
  intros Hpos s Hs. rewrite Hworst.
  assert (HS : S <> 0).
  { assert (0 < S) as Hlt.
    { apply qsum_pos; [|assumption]. intros ->. destruct HM as [[] _]. }
    intros E. rewrite E in Hlt. revert Hlt. apply Qcle_not_lt, Qcle_refl. }
  assert (Hm0 : m <> 0).
  { destruct Hm as [Hin _]. rewrite Forall_forall in Hpos.
    specialize (Hpos _ Hin). intros E. rewrite E in Hpos.
    revert Hpos. apply Qcle_not_lt, Qcle_refl. }
  cbn [Num.mul].
  rewrite !div_finite, max_finite; [reflexivity| |].
  - intros E. apply Qcmult_integral in E. destruct E as [E|E]; [|contradiction].
    apply Qcmult_integral in E. tauto.
  - intros E. apply Qcmult_integral in E. tauto.
Qed.

Lemma Qcpos_neq0 (a : Qc) : 0 < a -> a <> 0.
Proof.
  intros Hlt E. rewrite E in Hlt. revert Hlt. apply Qcle_not_lt, Qcle_refl.
Qed.

Lemma Qcdiv_neq0 (a b : Qc) : a <> 0 -> b <> 0 -> a / b <> 0.
Proof.
  intros Ha Hb E. apply Ha.
  replace a with (a / b * b) by now field. rewrite E. ring.
Qed.

Lemma layoutRow_loop_areas cy0 (h : Qc) row rects offsetX :
  h <> 0 ->
  Forall (fun i => is_finite (weight i) = true) row ->
  map rect_area (fst (fold_left (layoutRow_body cy0 (Fin h)) row (rects, offsetX)))
  = map rect_area rects ++ map (@weight D) row.
Proof.
  intros Hh Hfin. revert rects offsetX.
  induction Hfin as [|i row Hi _ IH]; intros rects offsetX; cbn [fold_left map].
  - cbn. now rewrite app_nil_r.
  - unfold layoutRow_body at 2. rewrite IH, map_app, <- app_assoc. f_equal.
    cbn [map app]. f_equal. unfold rect_area; cbn [width height].
    destruct (weight i) as [w| | |]; try discriminate.
    rewrite div_finite by assumption. cbn [Num.mul]. f_equal. now field.
Qed.

(** A row laid out along a finite side other than zero gives every item a
    rectangle whose area is the weight of the item. *)
Lemma layoutRow_areas row ws (side : Qc) container :
  map (@weight D) row = map Fin ws ->
  qsum ws <> 0 -> side <> 0 ->
  map rect_area (fst (layoutRow row (Fin side) container)) = map (@weight D) row.
Proof.
  intros Hws HS Hside. unfold layoutRow; cbn [fst].
  rewrite (@sum_weights_finite row ws Hws), div_finite by assumption.
  rewrite layoutRow_loop_areas; [reflexivity| |].
  - now apply Qcdiv_neq0.
  - clear HS. revert ws Hws. induction row as [|i row IH]; intros [|w ws];
      cbn [map]; try discriminate; constructor.
    + injection Hws as -> _. reflexivity.
    + injection Hws as _ Hws. eapply IH, Hws.
Qed.

(** One item of positive weight in a positive container is given a rectangle
    at the origin, as wide as the shorter dimension of the container, whose
    area is the area of the container. *)
Lemma treemap_single name (w W H : Qc) (d : option D) :
  0 < w -> 0 < W -> 0 < H ->
  treemap [mkItem name (Fin w) d] (Fin W) (Fin H)
  = [mkRect name zero zero (Fin (Qcmin W H)) (Fin (W * H / Qcmin W H)) d].
Proof.
  intros Hw HW HH.
  assert (Hside : Qcmin W H <> 0).
  { unfold Qcmin. destruct (Qcltb H W); now apply Qcpos_neq0. }
  assert (Hpos : (Fin w >? zero)%num = true) by now apply Qcltb_lt.
  apply Qcpos_neq0 in Hw, HW, HH.
  unfold treemap; cbn [is_empty filter weight]. rewrite Hpos. cbn [is_empty].
  unfold normalize, sum_weights; cbn [map fold_left weight id data sort fold_right sort_insert].
  simp squarify. cbn zeta. cbn [cwidth cheight app].
  rewrite min_finite. unfold zero; cbn [Num.add Num.mul].
  assert (Hw0 : 0 + w <> 0) by now rewrite Qcplus_0_l.
  rewrite div_finite by assumption. cbn [Num.mul].
  assert (Ha : w / (0 + w) * (W * H) = W * H) by now field.
  rewrite Ha.
  assert (HA : 0 + W * H <> 0).
  { rewrite Qcplus_0_l. intros E. apply Qcmult_integral in E. tauto. }
  unfold layoutRow, sum_weights;
    cbn [fold_left layoutRow_body weight id data fst app cx cy].
  unfold zero; cbn [Num.add]. rewrite div_finite by assumption.
  rewrite div_finite by now apply Qcdiv_neq0.
  assert (HWH : W * H <> 0).
  { intros E. apply Qcmult_integral in E. tauto. }
  replace (W * H / ((0 + W * H) / Qcmin W H)) with (Qcmin W H)
    by (field; tauto).
  replace ((0 + W * H) / Qcmin W H) with (W * H / Qcmin W H)
    by (field; tauto).
  reflexivity.
Qed.

(** In a container no wider than it is high, the rectangle of a single item
    is the container. *)
Lemma treemap_single_portrait name (w W H : Qc) (d : option D) :
  0 < w -> 0 < W -> W <= H ->
  treemap [mkItem name (Fin w) d] (Fin W) (Fin H)
  = [mkRect name zero zero (Fin W) (Fin H) d].
Proof.
  intros Hw HW HWH.
  assert (HH : 0 < H) by (eapply Qclt_le_trans; eassumption).
  rewrite treemap_single by assumption.
  assert (E : Qcmin W H = W).
  { unfold Qcmin. destruct (Qcltb H W) eqn:E; [|reflexivity].
    apply Qcltb_lt in E. now apply Qcle_not_lt in HWH. }
  rewrite E. apply Qcpos_neq0 in HW.
  replace (W * H / W) with H by now field.
  reflexivity.
Qed.

End Finite.

(** ** Instances *)

(** The row of weights [3] and [1]: sum [4], greatest weight [3], least
    weight [1]. *)
Lemma worst_is_max_of_two_ratios_witness :
  let row := [item "a" 3; item "b" 1] in
  let ws := [Q2Qc (inject_Z 3); Q2Qc (inject_Z 1)] in
  let M := Q2Qc (inject_Z 3) in
  let m := Q2Qc (inject_Z 1) in
  (map (@weight unit) row = map Fin ws /\ is_max M ws /\ is_min m ws) /\
  (forall side : num,
     worst row side
     = Num.max ((side * side * Fin M) / (Fin (qsum ws) * Fin (qsum ws)))
               ((Fin (qsum ws) * Fin (qsum ws)) / (side * side * Fin m))).
Proof.
  intros row ws M m.
  assert (Hws : map (@weight unit) row = map Fin ws) by reflexivity.
  assert (HM : is_max M ws).
  { split; [now left|]. repeat constructor; now vm_compute. }
  assert (Hm : is_min m ws).
  { split; [right; now left|]. repeat constructor; now vm_compute. }
  split; [exact (conj Hws (conj HM Hm))|].
  exact (proj1 (@worst_is_max_of_two_ratios unit row ws M m Hws HM Hm)).
Defined.

(** The weights [3] and [1] rescaled to the area [8]. *)
Lemma normalize_rescales_to_area_witness :
  let items := [item "a" 3; item "b" 1] in
  let ws := [Q2Qc (inject_Z 3); Q2Qc (inject_Z 1)] in
  let A := Q2Qc (inject_Z 8) in
  (items <> [] /\ map (@weight unit) items = map Fin ws /\
   Forall (fun w => (0 < w)%Qc) ws) /\
  sum_weights (normalize items (Fin A)) = Fin A.
Proof.
  intros items ws A.
  assert (Hne : items <> []) by discriminate.
  assert (Hws : map (@weight unit) items = map Fin ws) by reflexivity.
  assert (Hpos : Forall (fun w => (0 < w)%Qc) ws)
    by (repeat constructor; now vm_compute).
  split; [exact (conj Hne (conj Hws Hpos))|].
  exact (proj2 (proj2 (proj2 (proj2
    (@normalize_rescales_to_area unit items ws A Hne Hws Hpos))))).
Defined.

(** One item of weight zero: no weight is positive, and the output is
    empty. *)
Lemma treemap_lays_out_positive_items_witness :
  let items := [item "z" 0] in
  filter (fun i => weight i >? zero) items = [] /\
  treemap items (of_Z 500) (of_Z 500) = [].
Proof.
  intros items.
  assert (Hv : filter (fun i => weight i >? zero) items = []) by reflexivity.
  split; [exact Hv|].
  exact (proj2 (proj2 (proj1 treemap_lays_out_positive_items
                         unit items (of_Z 500) (of_Z 500))) Hv).
Defined.

(** The first call on one item: it opens a row with the item, which consumes
    the item. *)
Lemma squarify_terminates_witness :
  let container := mkContainer (of_Z 0) (of_Z 0) (of_Z 300) (of_Z 400) in
  let s := mkState [item "1" 1] [] container [] in
  let s' := mkState [] [item "1" 1] container [] in
  squarify_call s' s /\
  ((exists i, st_items s = i :: st_items s') \/
   (st_row s <> [] /\ st_row s' = [] /\ st_items s' = st_items s)).
Proof.
  intros container s s'.
  assert (Hcall : squarify_call s' s) by reflexivity.
  split; [exact Hcall|].
  exact (proj1 (squarify_terminates unit) s s' Hcall).
Defined.

(** * Further properties of the layout *)

Section RowProperties.

Context {D : Type}.

Implicit Types (row items : list (TreemapItem D)) (rects : list (TreemapRect D)).

(** The loop of [layoutRow] only appends: the new rectangles carry the
    top edge [cy0] and the height [rowHeight], the widths
    [weight / rowHeight], and abut from [offsetX]. *)
Lemma layoutRow_loop_geometry cy0 rowHeight row rects offsetX :
  exists new,
    fst (fold_left (layoutRow_body cy0 rowHeight) row (rects, offsetX))
    = rects ++ new /\
    Forall (fun r => y r = cy0 /\ height r = rowHeight) new /\
    map (@width D) new = map (fun i => weight i / rowHeight) row /\
    abutting offsetX new.
Proof.
  revert rects offsetX. induction row as [|i row IH]; intros rects offsetX.
  - exists []. cbn. rewrite app_nil_r. repeat split; constructor.
  - cbn [fold_left]. unfold layoutRow_body at 2.
    destruct (IH (rects ++ [mkRect (id i) offsetX cy0 (weight i / rowHeight)
                                   rowHeight (data i)])
                 (offsetX + weight i / rowHeight)) as (new & E & Hall & Hw & Hab).
    eexists (_ :: new). rewrite E, <- app_assoc. split; [reflexivity|].
    split; [|split].
    + constructor; [now split | assumption].
    + cbn [map width]. now rewrite Hw.
    + cbn. split; [reflexivity | assumption].
Qed.

(** The widths of the rectangles of a row. *)
Lemma layoutRow_widths row side container :
  map (@width D) (fst (layoutRow row side container))
  = map (fun i => weight i / (sum_weights row / side)) row.
Proof.
  unfold layoutRow; cbn [fst].
  destruct (layoutRow_loop_geometry (cy container) (sum_weights row / side)
              row [] (cx container)) as (new & -> & _ & Hw & _).
  exact Hw.
Qed.

(** X1.  The rectangles of a row have the top edge of the container and the
    height [sum / width], the [k]-th one is [weight_k / height] wide, and
    they abut from the left edge of the container: each starts where the
    previous one ends.  The remaining container keeps the left edge and the
    width, and starts where the row ends. *)
Theorem layoutRow_geometry row side container :
  let rowHeight := sum_weights row / side in
  let rects := fst (layoutRow row side container) in
  let remaining := snd (layoutRow row side container) in
  Forall (fun r => y r = cy container /\ height r = rowHeight) rects /\
  map (@width D) rects = map (fun i => weight i / rowHeight) row /\
  abutting (cx container) rects /\
  cx remaining = cx container /\
  cwidth remaining = cwidth container /\
  cy remaining = cy container + rowHeight /\
  cheight remaining = cheight container - rowHeight.
Proof.
  cbv zeta. unfold layoutRow; cbn [fst snd cx cy cwidth cheight].
  destruct (layoutRow_loop_geometry (cy container) (sum_weights row / side)
              row [] (cx container)) as (new & -> & Hall & Hw & Hab).
  cbn [app]. repeat split; assumption.
Qed.

End RowProperties.

(** Order facts on [Qc] are proved on the underlying fractions. *)
Ltac to_Q :=
  repeat progress
    (unfold Qcle, Qclt, Qcdiv, Qcmult, Qcplus, Qcminus, Qcopp, Qcinv, Q2Qc in *;
     cbn [this] in *; rewrite ?Qred_correct in * ).

Section RowArithmetic.

Context {D : Type}.

Implicit Types (row items : list (TreemapItem D)) (rects : list (TreemapRect D))
  (ws : list Qc).

Local Open Scope Qc_scope.

Lemma excess_pos (S W H : Qc) : 0 < S -> 0 < H -> H < W -> 0 < S * (W - H) / H.
Proof.
  intros HS HH HHW. to_Q. apply Qlt_shift_div_l; [assumption|]. nra.
Qed.

Lemma Qcminus_pos_lt (a e : Qc) : 0 < e -> a - e < a.
Proof. intros He. to_Q. lra. Qed.

(** A sum of finite numbers, as [reduce] computes it from a finite value. *)
Lemma sum_loop_finite (A : Type) (f : A -> num) (l : list A) ws (a : Qc) :
  map f l = map Fin ws ->
  fold_left (fun acc e => (acc + f e)%num) l (Fin a) = Fin (a + qsum ws).
Proof.
  revert ws a. induction l as [|e l IH]; intros [|w ws] a;
    cbn [map fold_left]; try discriminate.
  - intros _. f_equal. unfold qsum; cbn [fold_right]. ring.
  - intros [= Hw Hws]. rewrite Hw. cbn [Num.add].
    rewrite (IH _ _ Hws). f_equal. unfold qsum; cbn [fold_right]. ring.
Qed.

Lemma qsum_div ws (c : Qc) : qsum (map (fun w => w / c) ws) = qsum ws / c.
Proof. unfold Qcdiv. apply qsum_scale. Qed.

Lemma quotients_finite row ws (h : Qc) :
  map (@weight D) row = map Fin ws -> h <> 0 ->
  map (fun i => (weight i / Fin h)%num) row = map Fin (map (fun w => w / h) ws).
Proof.
  intros Hws Hh. revert ws Hws.
  induction row as [|i row IH]; intros [|w ws]; cbn [map]; try discriminate;
    [reflexivity|].
  intros [= Hi Hws]. rewrite Hi, div_finite by assumption. f_equal. now apply IH.
Qed.

(** A row laid out along a finite side other than zero is as long as the
    side. *)
Lemma layoutRow_total_width row ws (side : Qc) container :
  map (@weight D) row = map Fin ws ->
  qsum ws <> 0 ->
  side <> 0 ->
  total_width (fst (layoutRow row (Fin side) container)) = Fin side.
Proof.
  intros Hws HS Hside.
  pose proof (layoutRow_widths row (Fin side) container) as Hw.
  rewrite (@sum_weights_finite D row ws Hws), div_finite in Hw by assumption.
  assert (Hh : qsum ws / side <> 0) by now apply Qcdiv_neq0.
  rewrite (@quotients_finite row ws _ Hws Hh) in Hw.
  unfold total_width, zero.
  rewrite (@sum_loop_finite _ (@width D) _ _ 0 Hw), qsum_div.
  f_equal. now field.
Qed.

(** X2.  A row of finite weights of sum other than zero, laid out along a
    finite side other than zero: the area of each rectangle is the weight of
    its item, the areas sum to the sum of the weights, and the widths sum to
    the side. *)
Theorem layoutRow_conserves_weights row ws (side : Qc) container :
  map (@weight D) row = map Fin ws ->
  qsum ws <> 0 ->
  side <> 0 ->
  let rects := fst (layoutRow row (Fin side) container) in
  map rect_area rects = map (@weight D) row /\
  total_area rects = Fin (qsum ws) /\
  total_width rects = Fin side.
Proof.
  intros Hws HS Hside rects.
  assert (Hareas : map rect_area rects = map (@weight D) row)
    by (eapply layoutRow_areas; eassumption).
  split; [exact Hareas|]. split.
  - change (total_area rects)
      with (fold_left (fun acc e => (acc + rect_area e)%num) rects (Fin 0)).
    rewrite (@sum_loop_finite _ rect_area rects ws 0)
      by (rewrite Hareas; exact Hws).
    f_equal. ring.
  - now apply layoutRow_total_width with ws.
Qed.

Lemma Qcltb_false_le (a b : Qc) : a <= b -> Qcltb b a = false.
Proof.
  intros H. destruct (Qcltb b a) eqn:E; [|reflexivity].
  apply Qcltb_lt in E. now apply Qcle_not_lt in H.
Qed.

(** X3.  In exact arithmetic (numbers as rationals: no rounding, overflow or
    underflow): in a finite container no wider than it is high, the row that
    [squarify] lays out (along the shorter dimension) is as long as the
    container is wide, and the remaining container has the area of the
    container less the weights of the row. *)
Theorem layoutRow_in_portrait_container row ws (W H : Qc) (x0 y0 : num) :
  map (@weight D) row = map Fin ws ->
  qsum ws <> 0 ->
  0 < W -> W <= H ->
  let container := mkContainer x0 y0 (Fin W) (Fin H) in
  let side := Num.min (cwidth container) (cheight container) in
  let rects := fst (layoutRow row side container) in
  let remaining := snd (layoutRow row side container) in
  total_width rects = cwidth container /\
  (cwidth remaining * cheight remaining)%num = Fin (W * H - qsum ws).
Proof.
  intros Hws HS HW HWH container side rects remaining.
  assert (Hside : side = Fin W).
  { unfold side, container; cbn [cwidth cheight].
    rewrite min_finite. unfold Qcmin. now rewrite Qcltb_false_le. }
  assert (HW0 : W <> 0) by now apply Qcpos_neq0.
  unfold rects, remaining. rewrite Hside. split.
  - exact (@layoutRow_total_width row ws W container Hws HS HW0).
  - unfold layoutRow, container; cbn [snd cwidth cheight].
    rewrite (@sum_weights_finite D row ws Hws), div_finite by assumption.
    cbn. f_equal. now field.
Qed.

(** X4.  In exact arithmetic (numbers as rationals: no rounding, overflow or
    underflow): in a finite container wider than it is high, the row that
    [squarify] lays out is only as long as the container is high, so it stops
    short of the right edge; the remaining container has the area
    [W * H - S * W / H], which is less than the area of the container less the
    weights [S] of the row. *)
Theorem layoutRow_in_landscape_container row ws (W H : Qc) (x0 y0 : num) :
  map (@weight D) row = map Fin ws ->
  0 < qsum ws ->
  0 < H -> H < W ->
  let container := mkContainer x0 y0 (Fin W) (Fin H) in
  let side := Num.min (cwidth container) (cheight container) in
  let rects := fst (layoutRow row side container) in
  let remaining := snd (layoutRow row side container) in
  total_width rects = Fin H /\
  (total_width rects <? cwidth container)%num = true /\
  (cwidth remaining * cheight remaining)%num = Fin (W * H - qsum ws * W / H) /\
  W * H - qsum ws * W / H < W * H - qsum ws.
Proof.
  intros Hws HS HH HHW container side rects remaining.
  assert (Hside : side = Fin H).
  { unfold side, container; cbn [cwidth cheight].
    rewrite min_finite. unfold Qcmin.
    apply Qcltb_lt in HHW. now rewrite HHW. }
  assert (HH0 : H <> 0) by now apply Qcpos_neq0.
  assert (HS0 : qsum ws <> 0) by now apply Qcpos_neq0.
  assert (Hwidth : total_width rects = Fin H).
  { unfold rects. rewrite Hside.
    exact (@layoutRow_total_width row ws H container Hws HS0 HH0). }
  split; [exact Hwidth|]. split; [|split].
  - rewrite Hwidth. cbn. now apply Qcltb_lt.
  - unfold remaining. rewrite Hside.
    unfold layoutRow, container; cbn [snd cwidth cheight].
    rewrite (@sum_weights_finite D row ws Hws), div_finite by assumption.
    cbn. f_equal. now field.
  - assert (E : W * H - qsum ws * W / H
                = W * H - qsum ws - qsum ws * (W - H) / H) by now field.
    rewrite E. now apply Qcminus_pos_lt, excess_pos.
Qed.

(** [worst] on a non-empty row of positive weights, along a finite side
    other than zero. *)
Lemma worst_finite row ws (M m s : Qc) :
  map (@weight D) row = map Fin ws ->
  is_max M ws -> is_min m ws ->
  Forall (fun w => 0 < w) ws -> s <> 0 ->
  worst row (Fin s)
  = Fin (Qcmax (s * s * M / (qsum ws * qsum ws))
               (qsum ws * qsum ws / (s * s * m))).
Proof.
  intros Hws HM Hm Hpos Hs. unfold worst.
  rewrite (@sum_weights_finite D row ws Hws), Hws.
  rewrite (max_list_finite HM), (min_list_finite Hm).
  assert (HS : qsum ws <> 0).
  { apply Qcpos_neq0, qsum_pos; [|assumption]. intros ->. destruct HM as [[] _]. }
  assert (Hm0 : m <> 0).
  { destruct Hm as [Hin _]. rewrite Forall_forall in Hpos.
    apply Qcpos_neq0, Hpos, Hin. }
  cbn [Num.mul].
  rewrite !div_finite, max_finite; [reflexivity| |].
  - intros E. apply Qcmult_integral in E. destruct E as [E|E]; [|contradiction].
    apply Qcmult_integral in E. tauto.
  - intros E. apply Qcmult_integral in E. tauto.
Qed.

Lemma Qcsquare_pos (s : Qc) : s <> 0 -> 0 < s * s.
Proof.
  intros Hs. assert (~ (this s == 0)%Q).
  { intros E. apply Hs. apply Qc_is_canon. exact E. }
  to_Q. nra.
Qed.

Lemma ratio_ge_1 (p q M : Qc) : 0 < q -> q <= p * M -> 1 <= p * M / q.
Proof.
  intros Hq H. to_Q. apply Qle_shift_div_l; [assumption|]. lra.
Qed.

Lemma inverse_ratio_ge_1 (p q m M : Qc) :
  0 < p -> 0 < m -> m <= M -> p * M < q -> 1 <= q / (p * m).
Proof.
  intros Hp Hm HmM H. to_Q.
  assert (0 < this p * this m)%Q by nra.
  apply Qle_shift_div_l; [assumption|]. nra.
Qed.

(** X5.  In exact arithmetic (numbers as rationals: no rounding, overflow or
    underflow): on a non-empty row of finite positive weights, along a finite
    side other than zero, [worst] is a finite number and at least [1]: the
    value [1] stands for a square. *)
Theorem worst_at_least_one row ws (s : Qc) :
  row <> [] ->
  map (@weight D) row = map Fin ws ->
  Forall (fun w => 0 < w) ws ->
  s <> 0 ->
  exists r : Qc, worst row (Fin s) = Fin r /\ 1 <= r.
Proof.
  intros Hrow Hws Hpos Hs.
  assert (Hne : ws <> []).
  { intros ->. destruct row; [congruence | discriminate]. }
  destruct ws as [|w0 ws0]; [congruence|].
  destruct (max_loop_finite ws0 w0) as (M & _ & HMin & HMle & HMall).
  destruct (min_loop_finite ws0 w0) as (m & _ & Hmin & Hmle & Hmall).
  assert (HM : is_max M (w0 :: ws0)).
  { split; [destruct HMin as [->|]; [now left | now right] | now constructor]. }
  assert (Hm : is_min m (w0 :: ws0)).
  { split; [destruct Hmin as [->|]; [now left | now right] | now constructor]. }
  rewrite (@worst_finite row (w0 :: ws0) M m s Hws HM Hm Hpos Hs).
  eexists. split; [reflexivity|].
  set (S := qsum (w0 :: ws0)).
  assert (HS : 0 < S) by (apply qsum_pos; assumption).
  assert (Hm0 : 0 < m).
  { destruct Hm as [Hin _]. rewrite Forall_forall in Hpos. now apply Hpos. }
  assert (HmM : m <= M) by (eapply Qcle_trans; eassumption).
  assert (Hp : 0 < s * s) by now apply Qcsquare_pos.
  assert (Hq : 0 < S * S) by (apply Qcsquare_pos, Qcpos_neq0, HS).
  unfold Qcmax.
  destruct (Qclt_le_dec (s * s * M) (S * S)) as [Hlt|Hge].
  - assert (Hb : 1 <= S * S / (s * s * m)) by now apply inverse_ratio_ge_1 with M.
    destruct (Qcltb _ _) eqn:E; [exact Hb|].
    apply Qcltb_ge in E. eapply Qcle_trans; eassumption.
  - assert (Ha : 1 <= s * s * M / (S * S)) by now apply ratio_ge_1.
    destruct (Qcltb _ _) eqn:E; [|exact Ha].
    apply Qcltb_lt in E. apply Qclt_le_weak. eapply Qcle_lt_trans; eassumption.
Qed.

End RowArithmetic.

Section LayoutProperties.

Context {D : Type}.

Implicit Types (row items : list (TreemapItem D)) (rects : list (TreemapRect D))
  (ws : list Qc).

Local Open Scope Qc_scope.

Lemma squarify_appends_below (n : nat) :
  forall items row container rects,
    (measure items row < n)%nat ->
    squarify items row container rects
    = rects ++ squarify items row container [].
Proof.
  induction n as [|n IH]; intros items row c rects Hm; [lia|].
  destruct items as [|i items], row as [|r row]; simp squarify; cbv zeta.
  - now rewrite app_nil_r.
  - reflexivity.
  - apply IH. unfold measure in *; cbn [List.length is_empty] in *. lia.
  - destruct (_ || _).
    + apply IH. unfold measure in *; cbn [List.length is_empty app] in *. lia.
    + rewrite IH by (unfold measure in *; cbn [List.length is_empty] in *; lia).
      rewrite (IH _ _ _ ([] ++ _))
        by (unfold measure in *; cbn [List.length is_empty] in *; lia).
      cbn [app]. now rewrite app_assoc.
Qed.

(** X6.  [squarify] only appends to the rectangles it is given: they stay,
    unchanged and in front, and what follows them does not depend on them. *)
Theorem squarify_keeps_placed_rectangles items row container rects :
  squarify items row container rects
  = rects ++ squarify items row container [].
Proof. apply (squarify_appends_below (n := S (measure items row))). lia. Qed.

Lemma sum_weights_scaled items ws (k : Qc) :
  map (@weight D) items = map Fin ws ->
  sum_weights (map (scale_weight (Fin k)) items) = Fin (qsum ws * k).
Proof.
  intros Hws. rewrite <- qsum_scale. apply sum_weights_finite.
  rewrite !map_map. revert ws Hws.
  induction items as [|i items IH]; intros [|w ws]; cbn [map]; try discriminate;
    [reflexivity|].
  intros [= Hi Hws]. cbn [scale_weight weight]. rewrite Hi. cbn [Num.mul].
  f_equal. now apply IH.
Qed.

Lemma finite_weights items :
  Forall (fun i => is_finite (weight i) = true) items ->
  exists ws, map (@weight D) items = map Fin ws.
Proof.
  induction 1 as [|i items Hi _ [ws IH]]; [now exists []|].
  destruct (weight i) as [w| | |] eqn:E; try discriminate.
  exists (w :: ws). cbn [map]. now rewrite E, IH.
Qed.

Lemma positive_weights items ws :
  map (@weight D) items = map Fin ws ->
  Forall (fun i => (weight i >? zero)%num = true) items ->
  Forall (fun w => 0 < w) ws.
Proof.
  intros Hws Hpos. revert ws Hws.
  induction Hpos as [|i items Hi _ IH]; intros [|w ws]; cbn [map];
    try discriminate; constructor.
  - injection Hws as E _. rewrite E in Hi. now apply Qcltb_lt in Hi.
  - injection Hws as _ Hws. now apply IH.
Qed.

Lemma filter_positive items :
  Forall (fun i => (weight i >? zero)%num = true)
         (filter (fun i => (weight i >? zero)%num) items).
Proof. apply Forall_forall. intros i Hi. now apply filter_In in Hi. Qed.

Lemma scaled_positive (k w : Qc) : 0 < k -> Qcltb 0 (w * k) = Qcltb 0 w.
Proof.
  intros Hk. destruct (Qcltb 0 w) eqn:E.
  - apply Qcltb_lt in E. apply Qcltb_lt. to_Q. nra.
  - apply Qcltb_ge in E. apply Qcltb_false_le. to_Q. nra.
Qed.

Lemma filter_scaled items (k : Qc) :
  0 < k ->
  Forall (fun i => is_finite (weight i) = true) items ->
  filter (fun i => (weight i >? zero)%num) (map (scale_weight (Fin k)) items)
  = map (scale_weight (Fin k)) (filter (fun i => (weight i >? zero)%num) items).
Proof.
  intros Hk. induction 1 as [|i items Hi _ IH]; [reflexivity|].
  cbn [map filter]. rewrite IH.
  assert (E : (weight (scale_weight (Fin k) i) >? zero)%num
              = (weight i >? zero)%num).
  { unfold scale_weight; cbn [weight].
    destruct (weight i) as [w| | |]; try discriminate.
    cbn. now apply scaled_positive. }
  rewrite E. now destruct (weight i >? zero)%num.
Qed.

Lemma normalize_scaled items ws (k : Qc) (area : num) :
  map (@weight D) items = map Fin ws ->
  qsum ws <> 0 -> k <> 0 ->
  normalize (map (scale_weight (Fin k)) items) area = normalize items area.
Proof.
  intros Hws HT Hk. unfold normalize.
  rewrite (@sum_weights_scaled items ws k Hws), (@sum_weights_finite D items ws Hws).
  rewrite map_map.
  assert (HTk : qsum ws * k <> 0).
  { intros E. apply Qcmult_integral in E. tauto. }
  revert HT HTk. generalize (qsum ws) as T. intros T HT HTk.
  revert ws Hws. induction items as [|i items IH]; intros [|w ws]; cbn [map];
    try discriminate; [reflexivity|].
  intros [= Hi Hws]. rewrite (IH _ Hws). f_equal.
  cbn [scale_weight id weight data]. rewrite Hi. cbn [Num.mul].
  rewrite !div_finite by assumption.
  replace (w * k / (T * k)) with (w / T) by now field.
  reflexivity.
Qed.

(** X7.  In exact arithmetic (numbers as rationals: no rounding, overflow or
    underflow), only the ratios of the weights matter: multiplying every
    weight by the same finite positive factor leaves the output of [treemap]
    unchanged, in every container. *)
Theorem treemap_scale_invariant items (k : Qc) (W H : num) :
  0 < k ->
  Forall (fun i => is_finite (weight i) = true) items ->
  treemap (map (scale_weight (Fin k)) items) W H = treemap items W H.
Proof.
  intros Hk Hfin. unfold treemap.
  destruct items as [|i0 items0]; [reflexivity|].
  cbn [map is_empty]. change (scale_weight (Fin k) i0 :: map (scale_weight (Fin k)) items0)
    with (map (scale_weight (Fin k)) (i0 :: items0)).
  set (items := i0 :: items0) in *.
  rewrite (filter_scaled Hk Hfin).
  set (valid := filter (fun i => (weight i >? zero)%num) items).
  assert (Hvfin : Forall (fun i => is_finite (weight i) = true) valid).
  { apply Forall_forall. intros i Hi. apply filter_In in Hi.
    rewrite Forall_forall in Hfin. now apply Hfin. }
  destruct valid as [|v valid0] eqn:Ev; [reflexivity|].
  cbn [map is_empty]. rewrite <- Ev in *.
  change (scale_weight (Fin k) v :: map (scale_weight (Fin k)) valid0)
    with (map (scale_weight (Fin k)) (v :: valid0)).
  rewrite <- Ev.
  destruct (finite_weights Hvfin) as [ws Hws].
  assert (HT : qsum ws <> 0).
  { apply Qcpos_neq0, qsum_pos.
    - intros ->. rewrite Ev in Hws. discriminate.
    - apply (@positive_weights valid ws Hws). apply filter_positive. }
  rewrite (@normalize_scaled valid ws k (W * H)%num Hws HT (Qcpos_neq0 Hk)).
  reflexivity.
Qed.

(** X8.  In exact arithmetic (numbers as rationals: no rounding, overflow or
    underflow): one item of finite positive weight in a finite positive
    container is given one rectangle at the origin, as wide as the shorter
    dimension of the container and with the area of the container: the
    container itself when it is no wider than high, and the container with
    width and height exchanged when it is wider than high. *)
Theorem single_item_rectangle name (w W H : Qc) (d : option D) :
  0 < w -> 0 < W -> 0 < H ->
  treemap [mkItem name (Fin w) d] (Fin W) (Fin H)
  = [mkRect name zero zero (Fin (Qcmin W H)) (Fin (W * H / Qcmin W H)) d] /\
  (W <= H ->
   treemap [mkItem name (Fin w) d] (Fin W) (Fin H)
   = [mkRect name zero zero (Fin W) (Fin H) d]) /\
  (H < W ->
   treemap [mkItem name (Fin w) d] (Fin W) (Fin H)
   = [mkRect name zero zero (Fin H) (Fin W) d]).
Proof.
  intros Hw HW HH. split; [now apply treemap_single|]. split.
  - intros HWH. now apply treemap_single_portrait.
  - intros HHW. rewrite treemap_single by assumption.
    unfold Qcmin. apply Qcltb_lt in HHW. rewrite HHW.
    replace (W * H / H) with W by (field; now apply Qcpos_neq0).
    reflexivity.
Qed.

Lemma finite_gt_le (a b : num) :
  is_finite a = true -> is_finite b = true ->
  ((b - a) >? zero)%num = true -> Num.le a b = true.
Proof.
  destruct a as [x| | |], b as [y| | |]; try discriminate. intros _ _. cbn.
  intros H. apply Qcltb_lt in H. apply negb_true_iff, Qcltb_false_le.
  to_Q. lra.
Qed.

Lemma finite_not_gt_le (a b : num) :
  is_finite a = true -> is_finite b = true ->
  ((b - a) >? zero)%num = false -> Num.le b a = true.
Proof.
  destruct a as [x| | |], b as [y| | |]; try discriminate. intros _ _. cbn.
  intros H. apply Qcltb_ge in H. apply negb_true_iff, Qcltb_false_le.
  to_Q. lra.
Qed.

Lemma finite_le_trans (a b c : num) :
  is_finite a = true -> is_finite b = true -> is_finite c = true ->
  Num.le a b = true -> Num.le b c = true -> Num.le a c = true.
Proof.
  destruct a as [x| | |], b as [y| | |], c as [z| | |]; try discriminate.
  intros _ _ _. cbn. rewrite !negb_true_iff. intros H1 H2.
  apply Qcltb_ge in H1, H2. apply Qcltb_false_le. eapply Qcle_trans; eassumption.
Qed.

Lemma sort_insert_sorted a l :
  Forall (fun i => is_finite (weight i) = true) (a :: l) ->
  StronglySorted (@weight_ge D) l ->
  StronglySorted (@weight_ge D) (sort_insert by_weight_desc a l).
Proof.
  intros Hfin Hsorted. inversion Hfin as [|? ? Ha Hl]; subst.
  induction Hsorted as [|b l Hs IH Hb]; cbn [sort_insert]; [repeat constructor|].
  inversion Hl as [|? ? Hbf Hlf]; subst.
  unfold by_weight_desc at 1.
  destruct ((weight b - weight a) >? zero)%num eqn:E.
  - constructor; [apply IH; [now constructor | assumption]|].
    apply (Permutation_Forall (Permutation_sym (sort_insert_perm _ a l))).
    constructor; [|assumption].
    now apply finite_gt_le.
  - constructor; [now constructor|].
    assert (Hba : weight_ge a b) by now apply finite_not_gt_le.
    constructor; [assumption|].
    rewrite Forall_forall in *. intros c Hc.
    apply (@finite_le_trans (weight c) (weight b) (weight a)); auto.
    now apply Hb.
Qed.

Lemma sort_sorted l :
  Forall (fun i => is_finite (weight i) = true) l ->
  StronglySorted (@weight_ge D) (sort by_weight_desc l).
Proof.
  induction 1 as [|a l Ha Hl IH]; [constructor|].
  cbn [sort fold_right]. fold (sort by_weight_desc l).
  apply sort_insert_sorted; [|assumption].
  constructor; [assumption|].
  apply (Permutation_Forall (Permutation_sym (sort_perm _ l)) Hl).
Qed.

Lemma Qcdiv_pos (a b : Qc) : 0 < a -> 0 < b -> 0 < a / b.
Proof.
  intros Ha Hb. to_Q. apply Qlt_shift_div_l; [assumption|]. lra.
Qed.

(** X9.  The rectangles come out in the order in which [sort] leaves the
    normalized items: the [k]-th rectangle carries the id and the data of the
    [k]-th item of the sorted list, which holds the normalized items, and
    which is in descending order of normalized weight whenever the normalized
    weights are finite. *)
Theorem treemap_orders_by_weight items (W H : num) :
  let valid := filter (fun i => (weight i >? zero)%num) items in
  let normalized := normalize valid (W * H)%num in
  let sorted := sort by_weight_desc normalized in
  map rect_key (treemap items W H) = map item_key sorted /\
  Permutation sorted normalized /\
  (Forall (fun i => is_finite (weight i) = true) normalized ->
   StronglySorted (@weight_ge D) sorted).
Proof.
  intros valid normalized sorted.
  split; [|split; [apply sort_perm | apply sort_sorted]].
  unfold treemap, sorted, normalized.
  destruct items as [|i0 items0]; [reflexivity|]. cbn [is_empty].
  fold valid. destruct valid as [|v valid0]; [reflexivity|].
  cbn [is_empty]. rewrite squarify_keys. reflexivity.
Qed.

End LayoutProperties.

(** * The decision to extend the open row *)

Section RowDecision.

Context {D : Type}.

Implicit Types (row items : list (TreemapItem D)) (rects : list (TreemapRect D)).

(** With a non-empty open row, the output of [squarify] is the rectangles
    already placed, then the layout in the current container of the open row
    with the items it still takes, then the layout of the other items in the
    container that remains. *)
Lemma squarify_first_row items :
  forall row container rects,
    row <> [] ->
    let side := Num.min (cwidth container) (cheight container) in
    exists taken rest,
      items = taken ++ rest /\
      squarify items row container rects
      = rects ++ fst (layoutRow (row ++ taken) side container)
        ++ squarify rest [] (snd (layoutRow (row ++ taken) side container)) [].
Proof.
  induction items as [|i items IH]; intros row c rects Hrow side;
    (destruct row as [|r row]; [congruence|]).
  - exists [], []. split; [reflexivity|].
    simp squarify. cbv zeta. fold side. now rewrite !app_nil_r.
  - simp squarify. cbv zeta. fold side. cbn [is_empty]. rewrite orb_false_r.
    destruct (worst ((r :: row) ++ [i]) side <? worst (r :: row) side).
    + destruct (IH ((r :: row) ++ [i]) c rects) as (taken & rest & E & Hs);
        [now destruct row|].
      exists (i :: taken), rest. split; [now rewrite E|].
      fold side in Hs. rewrite Hs, <- !app_assoc. reflexivity.
    + exists [], (i :: items). split; [reflexivity|].
      rewrite (@squarify_appends_below D (S (measure (i :: items) []))) by lia.
      now rewrite !app_nil_r, <- app_assoc.
Qed.

(** C6.  With a non-empty open row, the call extends the row with the next
    item exactly when [worst] of the extended row is strictly less than
    [worst] of the row.  Then the item is laid out in the row of the open row:
    the output is the placed rectangles, the layout of the row, the item and
    the items taken after it, and the layout of the rest.  Otherwise, and so
    when the two values are equal, the row is laid out as it is and the item
    opens the next row, in the container that remains. *)
Theorem squarify_extends_iff_strictly_better
    (i : TreemapItem D) (remaining row : list (TreemapItem D))
    (container : Container) (rects : list (TreemapRect D)) :
  row <> [] ->
  let side := Num.min (cwidth container) (cheight container) in
  let newContainer := snd (layoutRow row side container) in
  let newSide := Num.min (cwidth newContainer) (cheight newContainer) in
  (squarify_step (mkState (i :: remaining) row container rects)
   = inr (mkState remaining (row ++ [i]) container rects)
   <-> (worst (row ++ [i]) side <? worst row side) = true) /\
  ((worst (row ++ [i]) side <? worst row side) = true ->
   exists taken rest,
     remaining = taken ++ rest /\
     squarify (i :: remaining) row container rects
     = rects ++ fst (layoutRow (row ++ i :: taken) side container)
       ++ squarify rest []
            (snd (layoutRow (row ++ i :: taken) side container)) []) /\
  ((worst (row ++ [i]) side <? worst row side) = false ->
   exists taken rest,
     remaining = taken ++ rest /\
     squarify (i :: remaining) row container rects
     = rects ++ fst (layoutRow row side container)
       ++ fst (layoutRow (i :: taken) newSide newContainer)
       ++ squarify rest []
            (snd (layoutRow (i :: taken) newSide newContainer)) []) /\
  (worst (row ++ [i]) side = worst row side ->
   (worst (row ++ [i]) side <? worst row side) = false).
Proof.
  intros Hrow side newContainer newSide.
  destruct row as [|r row]; [congruence|].
  split; [|split; [|split]].
  - unfold squarify_step; cbn [st_items st_row st_container st_rects is_empty].
    fold side. rewrite orb_false_r.
    destruct (worst ((r :: row) ++ [i]) side <? worst (r :: row) side).
    + split; reflexivity.
    + split; [|discriminate].
      destruct (layoutRow (r :: row) side container). intros H. inversion H.
  - intros Hlt. simp squarify. cbv zeta. fold side.
    rewrite Hlt. cbn [orb].
    destruct (@squarify_first_row remaining ((r :: row) ++ [i]) container rects)
      as (taken & rest & E & Hs); [now destruct row|].
    exists taken, rest. split; [exact E|].
    fold side in Hs. rewrite Hs, <- !app_assoc. reflexivity.
  - intros Hlt. simp squarify. cbv zeta. fold side.
    rewrite Hlt. cbn [orb is_empty]. fold newContainer.
    rewrite (@squarify_appends_below D (S (measure (i :: remaining) []))) by lia.
    simp squarify.
    destruct (@squarify_first_row remaining [i] newContainer [])
      as (taken & rest & E & Hs); [discriminate|].
    exists taken, rest. split; [exact E|].
    fold newSide in Hs. rewrite Hs, <- !app_assoc. reflexivity.
  - intros ->. apply num_lt_irrefl.
Qed.

End RowDecision.

(** The row [[b]] with the next item [c], both of weight [1], in the
    container [2 x 1] at [(0, 1)]: the row is not empty, and [worst] is [1]
    for the row and [4] for the extended row, so the row is laid out as it is
    and [c] opens the next row. *)
Lemma squarify_extends_iff_strictly_better_witness :
  let i := item "c" 1 in
  let row := [item "b" 1] in
  let container := mkContainer (of_Z 0) (of_Z 1) (of_Z 2) (of_Z 1) in
  let side := Num.min (cwidth container) (cheight container) in
  let newContainer := snd (layoutRow row side container) in
  let newSide := Num.min (cwidth newContainer) (cheight newContainer) in
  (row <> [] /\ (worst (row ++ [i]) side <? worst row side) = false) /\
  exists taken rest,
    [] = taken ++ rest /\
    squarify [i] row container []
    = [] ++ fst (layoutRow row side container)
      ++ fst (layoutRow (i :: taken) newSide newContainer)
      ++ squarify rest [] (snd (layoutRow (i :: taken) newSide newContainer)) [].
Proof.
  intros i row container side newContainer newSide.
  assert (Hrow : row <> []) by discriminate.
  assert (Hlt : (worst (row ++ [i]) side <? worst row side) = false)
    by (vm_compute; reflexivity).
  split; [exact (conj Hrow Hlt)|].
  exact (proj1 (proj2 (proj2
    (@squarify_extends_iff_strictly_better unit i [] row container [] Hrow)))
    Hlt).
Defined.

(** * The board *)

Section BoardProperties.

Context {Task : Type} (task_id : Task -> string)
        (task_priority : Task -> Priority).

Local Open Scope Qc_scope.

Lemma default_weight_positive (p : Priority) :
  (priorityToWeight p None >? zero)%num = true.
Proof. destruct p; reflexivity. Qed.

Lemma board_items_all_positive (tasks : list Task) :
  filter (fun i => (weight i >? zero)%num)
         (board_items task_id task_priority tasks)
  = board_items task_id task_priority tasks.
Proof.
  unfold board_items. induction tasks as [|t tasks IH]; [reflexivity|].
  cbn [map filter weight]. now rewrite default_weight_positive, IH.
Qed.

(** X10.  Whatever the width of the window, the board gives every task
    exactly one tile, and every tile carries the task it stands for as its
    data, with the id of that task: no task is dropped by the filter on
    weights, and [tile.data] is never missing. *)
Theorem board_gives_each_task_one_tile (tasks : list Task) (screenWidth : num) :
  let tiles := board_tiles task_id task_priority tasks screenWidth in
  Permutation (map rect_key tiles) (map (fun t => (task_id t, Some t)) tasks) /\
  List.length tiles = List.length tasks /\
  Forall (fun tile => exists t,
            In t tasks /\ rdata tile = Some t /\ rid tile = task_id t) tiles.
Proof.
  intros tiles.
  assert (Hperm : Permutation (map rect_key tiles)
                              (map (fun t => (task_id t, Some t)) tasks)).
  { unfold tiles, board_tiles.
    rewrite treemap_keys, board_items_all_positive.
    unfold board_items. rewrite map_map. reflexivity. }
  split; [exact Hperm|]. split.
  - rewrite <- (length_map rect_key), (Permutation_length Hperm).
    apply length_map.
  - apply Forall_forall. intros tile Hin.
    assert (Hk : In (rect_key tile) (map (fun t => (task_id t, Some t)) tasks)).
    { apply (Permutation_in _ Hperm). now apply in_map. }
    apply in_map_iff in Hk. destruct Hk as (t & E & Ht).
    exists t. unfold rect_key in E. injection E as E1 E2. auto.
Qed.

(** X11.  In exact arithmetic (numbers as rationals: no rounding, overflow
    or underflow): with one task and a window more than [32] wide, the single
    tile is the whole board. *)
Theorem board_single_task_fills_board (t : Task) (screenWidth : Qc) :
  Q2Qc (inject_Z 32) < screenWidth ->
  board_tiles task_id task_priority [t] (Fin screenWidth)
  = [mkRect (task_id t) zero zero (boardWidth (Fin screenWidth))
            (boardHeight (Fin screenWidth)) (Some t)].
Proof.
  intros Hsw. unfold board_tiles, board_items, boardHeight, boardWidth.
  cbn [map]. unfold of_Z, of_Q, Num.sub, Num.neg; cbn [Num.add Num.mul].
  assert (Hw : exists w, priorityToWeight (task_priority t) None = Fin w /\ 0 < w).
  { destruct (task_priority t); eexists; (split; [reflexivity | now vm_compute]). }
  destruct Hw as (w & -> & Hw).
  apply treemap_single_portrait; [assumption| |]; to_Q; lra.
Qed.

End BoardProperties.

(** * Utility functions *)

Section Progress.

Local Open Scope Qc_scope.

Lemma clamp_range (q : Qc) : 0 <= Qcmin 1 (Qcmax 0 q) /\ Qcmin 1 (Qcmax 0 q) <= 1.
Proof.
  unfold Qcmin, Qcmax.
  destruct (Qcltb 0 q) eqn:E0.
  - apply Qcltb_lt in E0. destruct (Qcltb q 1) eqn:E1.
    + apply Qcltb_lt in E1. split; now apply Qclt_le_weak.
    + split; [now vm_compute | apply Qcle_refl].
  - destruct (Qcltb 0 1) eqn:E1; [|discriminate].
    split; [apply Qcle_refl | now vm_compute].
Qed.

Lemma clamp_id (q : Qc) : 0 <= q -> q <= 1 -> Qcmin 1 (Qcmax 0 q) = q.
Proof.
  intros H0 H1. unfold Qcmin, Qcmax.
  destruct (Qcltb 0 q) eqn:E0.
  - destruct (Qcltb q 1) eqn:E1; [reflexivity|].
    apply Qcltb_ge in E1. now apply Qcle_antisym.
  - apply Qcltb_ge in E0. change (Qcltb 0 1) with true. cbv iota.
    now apply Qcle_antisym.
Qed.

Lemma calculateProgress_finite (c t : Qc) :
  calculateProgress (Fin c) (Fin t)
  = Fin (if Qceqb t 0 then 0 else Qcmin 1 (Qcmax 0 (c / t))).
Proof.
  unfold calculateProgress, strict_eq, zero.
  destruct (Qceqb t 0) eqn:E; [reflexivity|].
  rewrite div_finite.
  - rewrite max_finite. unfold of_Z. rewrite min_finite. reflexivity.
  - intros ->. discriminate.
Qed.

Lemma clamp_mono (q q' : Qc) :
  q <= q' -> Qcmin 1 (Qcmax 0 q) <= Qcmin 1 (Qcmax 0 q').
Proof.
  intros H. unfold Qcmin, Qcmax.
  destruct (Qcltb 0 q) eqn:E0; [apply Qcltb_lt in E0 | apply Qcltb_ge in E0];
  (destruct (Qcltb 0 q') eqn:E0';
   [apply Qcltb_lt in E0' | apply Qcltb_ge in E0']);
  repeat match goal with
         | |- context [Qcltb ?a ?b] =>
             let E := fresh "E" in
             destruct (Qcltb a b) eqn:E;
             [apply Qcltb_lt in E | apply Qcltb_ge in E]
         end; to_Q; lra.
Qed.

(** X12.  [calculateProgress] returns [0] whenever the total is [0], whatever
    the completed count (no division takes place), and on finite numbers it
    always returns a finite number between [0] and [1]. *)
Theorem calculateProgress_in_unit_interval :
  (forall completed : num, calculateProgress completed zero = zero) /\
  (forall completed total : Qc,
     exists r : Qc,
       calculateProgress (Fin completed) (Fin total) = Fin r /\
       0 <= r /\ r <= 1).
Proof.
  split; [reflexivity|].
  intros completed total. rewrite calculateProgress_finite.
  eexists. split; [reflexivity|].
  destruct (Qceqb total 0); [split; now vm_compute | apply clamp_range].
Qed.

(** X13.  With a finite positive total, [calculateProgress] is the quotient
    when the completed count is between [0] and the total, [1] when it
    exceeds the total, [0] when it is negative, and it never decreases when
    the completed count grows. *)
Theorem calculateProgress_positive_total (completed total : Qc) :
  0 < total ->
  (0 <= completed -> completed <= total ->
   calculateProgress (Fin completed) (Fin total) = Fin (completed / total)) /\
  (total <= completed ->
   calculateProgress (Fin completed) (Fin total) = of_Z 1) /\
  (completed <= 0 ->
   calculateProgress (Fin completed) (Fin total) = zero) /\
  (forall more : Qc, completed <= more ->
     Num.le (calculateProgress (Fin completed) (Fin total))
            (calculateProgress (Fin more) (Fin total)) = true).
Proof.
  intros Ht.
  assert (E : Qceqb total 0 = false).
  { destruct (Qceqb total 0) eqn:E; [|reflexivity].
    apply Qceqb_eq in E. now apply Qcpos_neq0 in Ht. }
  rewrite !calculateProgress_finite, E.
  split; [|split; [|split]].
  - intros Hc Hct. f_equal. apply clamp_id.
    + to_Q. apply Qle_shift_div_l; [assumption | lra].
    + to_Q. apply Qle_shift_div_r; [assumption | lra].
  - intros Hct.
    assert (Hq1 : 1 <= completed / total).
    { to_Q. apply Qle_shift_div_l; [assumption | lra]. }
    assert (Hq0 : Qcltb 0 (completed / total) = true).
    { apply Qcltb_lt. eapply Qclt_le_trans; [|exact Hq1]. now vm_compute. }
    unfold of_Z. f_equal. unfold Qcmin, Qcmax. rewrite Hq0.
    destruct (Qcltb (completed / total) 1) eqn:E1; [|reflexivity].
    apply Qcltb_lt in E1. now apply Qcle_not_lt in Hq1.
  - intros Hc.
    assert (Hq0 : completed / total <= 0).
    { to_Q. apply Qle_shift_div_r; [assumption | lra]. }
    unfold zero. f_equal.
    unfold Qcmin, Qcmax. rewrite (Qcltb_false_le Hq0). reflexivity.
  - intros more Hmore. rewrite calculateProgress_finite, E. cbn.
    apply negb_true_iff, Qcltb_false_le, clamp_mono.
    revert Hmore Ht. generalize completed, more, total. intros a b c Hab Hc.
    assert (Hi : 0 < / c).
    { replace (/ c) with (1 / c) by (field; now apply Qcpos_neq0).
      apply Qcdiv_pos; [now vm_compute | assumption]. }
    unfold Qcdiv. revert Hi. generalize (/ c). intros i Hi. to_Q. nra.
Qed.

End Progress.

Section Truncate.

Local Open Scope Qc_scope.

Lemma string_length_append (s1 s2 : string) :
  String.length (s1 ++ s2) = (String.length s1 + String.length s2)%nat.
Proof. induction s1 as [|c s1 IH]; cbn; [reflexivity | now rewrite IH]. Qed.

Lemma string_length_prefix (n : nat) (s : string) :
  String.length (substring 0 n s) = Nat.min n (String.length s).
Proof.
  revert s. induction n as [|n IH]; intros [|c s]; cbn; try reflexivity.
  now rewrite IH.
Qed.

(** The integer part of a rational that is not negative. *)
Lemma integer_part_nonneg (q : Qc) :
  0 <= q ->
  exists k : Z, to_integer_or_infinity (Fin q) = Int k /\
                (0 <= k)%Z /\ (inject_Z k <= this q)%Q.
Proof.
  intros Hq. cbn [to_integer_or_infinity]. eexists. split; [reflexivity|].
  assert (Hn : (0 <= Qnum (this q))%Z).
  { unfold Qcle, Qle in Hq. cbn in Hq. lia. }
  rewrite Z.quot_div_nonneg by (auto; lia).
  split; [apply Z.div_pos; lia|].
  pose proof (Qfloor_le q) as Hf. unfold Qfloor in Hf.
  destruct (this q) as [a b]. exact Hf.
Qed.

(** What [truncate] returns when the text is longer than a finite
    [maxLength] of at least [3]. *)
Lemma truncate_long (text : string) (m : Qc) :
  Q2Qc (inject_Z 3) <= m ->
  m < Q2Qc (inject_Z (Z.of_nat (String.length text))) ->
  exists n : nat,
    (n + 3 < String.length text)%nat /\
    truncate text (Fin m) = (substring 0 n text ++ "...")%string /\
    Q2Qc (inject_Z (Z.of_nat (n + 3))) <= m.
Proof.
  intros H3 Hlen.
  assert (He : 0 <= m + - Q2Qc (inject_Z 3)) by (to_Q; lra).
  destruct (integer_part_nonneg He) as (k & Hk & Hk0 & Hkq).
  assert (HkQ : (inject_Z k + 3 <= this m)%Q).
  { revert Hkq. to_Q. intros Hkq. unfold inject_Z in *. lra. }
  assert (Hklen : (k + 3 < Z.of_nat (String.length text))%Z).
  { rewrite Zlt_Qlt, inject_Z_plus. revert Hlen. to_Q. intros Hlen.
    change (inject_Z 3) with 3%Q. lra. }
  exists (Z.to_nat k). split; [lia|]. split.
  - unfold truncate, js_length, of_Z. cbn [Num.le Num.lt].
    apply Qcltb_lt in Hlen. rewrite Hlen. cbn [negb].
    unfold slice_from_start.
    change (Fin m - Fin (Q2Qc (inject_Z 3)))%num
      with (Fin (m + - Q2Qc (inject_Z 3))).
    rewrite Hk.
    replace (k <? 0)%Z with false by (symmetry; apply Z.ltb_ge; lia).
    rewrite Z.min_l by lia. reflexivity.
  - replace (Z.of_nat (Z.to_nat k + 3)) with (k + 3)%Z by lia.
    revert HkQ. to_Q. rewrite inject_Z_plus. change (inject_Z 3) with 3%Q.
    trivial.
Qed.

(** X14.  With a [maxLength] of at least [3], the result of [truncate] is
    never longer than [maxLength]: a text that fits is returned as it is, and
    a longer text is cut to a strictly shorter prefix followed by ["..."].
    Truncating again changes nothing. *)
Theorem truncate_fits (text : string) (maxLength : num) :
  Num.le (of_Z 3) maxLength = true ->
  Num.le (js_length (truncate text maxLength)) maxLength = true /\
  (Num.le (js_length text) maxLength = true -> truncate text maxLength = text) /\
  (Num.le (js_length text) maxLength = false ->
   exists n : nat,
     (n + 3 < String.length text)%nat /\
     truncate text maxLength = (substring 0 n text ++ "...")%string) /\
  truncate (truncate text maxLength) maxLength = truncate text maxLength.
Proof.
  intros H3.
  assert (Hfit : Num.le (js_length text) maxLength = true ->
                 truncate text maxLength = text).
  { intros E. unfold truncate. now rewrite E. }
  assert (Hcut : Num.le (js_length text) maxLength = false ->
    exists n : nat,
      (n + 3 < String.length text)%nat /\
      truncate text maxLength = (substring 0 n text ++ "...")%string /\
      Num.le (js_length (substring 0 n text ++ "...")%string) maxLength = true).
  { destruct maxLength as [m| | |]; try discriminate.
    intros E. cbn in H3, E.
    apply negb_true_iff, Qcltb_ge in H3. apply negb_false_iff, Qcltb_lt in E.
    destruct (truncate_long text H3 E) as (n & Hn & Ht & Hle).
    exists n. split; [exact Hn|]. split; [exact Ht|].
    unfold js_length. rewrite string_length_append, string_length_prefix.
    replace (Nat.min n (String.length text) + String.length "...")%nat
      with (n + 3)%nat by (cbn [String.length]; lia).
    cbn. now apply negb_true_iff, Qcltb_false_le. }
  assert (Hbound : Num.le (js_length (truncate text maxLength)) maxLength = true).
  { destruct (Num.le (js_length text) maxLength) eqn:E.
    - now rewrite Hfit.
    - destruct (Hcut eq_refl) as (n & _ & -> & Hle). exact Hle. }
  split; [exact Hbound|]. split; [exact Hfit|]. split.
  - intros E. destruct (Hcut E) as (n & Hn & Ht & _). now exists n.
  - unfold truncate at 1. now rewrite Hbound.
Qed.

(** X15.  With a finite [maxLength] below [3], a text longer than
    [maxLength] comes back longer than [maxLength]: what is returned ends
    with ["..."] and has at least [3] characters. *)
Theorem truncate_exceeds_small_limit (text : string) (maxLength : Qc) :
  maxLength < Q2Qc (inject_Z 3) ->
  Num.le (js_length text) (Fin maxLength) = false ->
  (3 <= String.length (truncate text (Fin maxLength)))%nat /\
  (Fin maxLength <? js_length (truncate text (Fin maxLength)))%num = true.
Proof.
  intros Hm E.
  assert (Hlen : (3 <= String.length (truncate text (Fin maxLength)))%nat).
  { unfold truncate. rewrite E, string_length_append. cbn [String.length]. lia. }
  split; [exact Hlen|].
  unfold js_length. cbn. apply Qcltb_lt.
  apply Qclt_le_trans with (Q2Qc (inject_Z 3)); [assumption|].
  revert Hlen. generalize (String.length (truncate text (Fin maxLength))).
  intros n Hn. to_Q. rewrite <- Zle_Qle. lia.
Qed.

End Truncate.

Section Anonymize.

Lemma repeat_star_length (n : nat) : String.length (repeat_string "*" n) = n.
Proof. induction n as [|n IH]; cbn; [reflexivity | now rewrite IH]. Qed.

Lemma anonymize_long (c : Ascii.ascii) (rest : string) :
  (1 <= String.length rest)%nat ->
  anonymizeDisplayName (String c rest)
  = String c (repeat_string "*" (Nat.min (String.length rest) 5)).
Proof.
  intros Hlen. unfold anonymizeDisplayName. cbn [is_empty_string orb String.length].
  replace (S (String.length rest) <? 2)%nat with false
    by (symmetry; apply Nat.ltb_ge; lia).
  unfold charAt0. cbn [substring append].
  replace (S (String.length rest) - 1)%nat with (String.length rest) by lia.
  now destruct rest.
Qed.

(** X16.  [anonymizeDisplayName] shows the first character of a name of at
    least two characters and nothing else but its length up to [6]: two such
    names are anonymized alike exactly when they start alike and have the
    same length, or both at least [6] characters.  The result has between
    [2] and [6] characters, all stars after the first; shorter names all give
    ["User***"]. *)
Theorem anonymize_shows_first_character_only :
  (forall name, (String.length name < 2)%nat ->
     anonymizeDisplayName name = "User***"%string) /\
  (forall c rest, (1 <= String.length rest)%nat ->
     anonymizeDisplayName (String c rest)
     = String c (repeat_string "*" (Nat.min (String.length rest) 5)) /\
     String.length (anonymizeDisplayName (String c rest))
     = Nat.min (S (String.length rest)) 6) /\
  (forall c1 rest1 c2 rest2,
     (1 <= String.length rest1)%nat -> (1 <= String.length rest2)%nat ->
     (anonymizeDisplayName (String c1 rest1) = anonymizeDisplayName (String c2 rest2)
      <-> c1 = c2 /\
          Nat.min (S (String.length rest1)) 6 = Nat.min (S (String.length rest2)) 6)).
Proof.
  split; [|split].
  - intros name Hlen. unfold anonymizeDisplayName.
    destruct name as [|c rest]; [reflexivity|].
    cbn [is_empty_string orb]. apply Nat.ltb_lt in Hlen. now rewrite Hlen.
  - intros c rest Hlen. rewrite anonymize_long by assumption.
    split; [reflexivity|]. cbn [String.length]. rewrite repeat_star_length. lia.
  - intros c1 rest1 c2 rest2 H1 H2. rewrite !anonymize_long by assumption. split.
    + intros [= Hc Hs]. split; [assumption|].
      apply (f_equal String.length) in Hs. rewrite !repeat_star_length in Hs. lia.
    + intros [-> Hmin].
      replace (Nat.min (String.length rest1) 5)
        with (Nat.min (String.length rest2) 5) by lia.
      reflexivity.
Qed.

End Anonymize.

(** * Instances of the further properties *)

(** A row of weights [3] and [1] along a side of [2]. *)
Lemma layoutRow_conserves_weights_witness :
  let row := [item "a" 3; item "b" 1] in
  let ws := [Q2Qc (inject_Z 3); Q2Qc (inject_Z 1)] in
  let side := Q2Qc (inject_Z 2) in
  let container := mkContainer (of_Z 0) (of_Z 0) (of_Z 2) (of_Z 2) in
  (map (@weight unit) row = map Fin ws /\ qsum ws <> Q2Qc 0 /\ side <> Q2Qc 0) /\
  total_width (fst (layoutRow row (Fin side) container)) = Fin side.
Proof.
  intros row ws side container.
  assert (Hws : map (@weight unit) row = map Fin ws) by reflexivity.
  assert (HS : qsum ws <> Q2Qc 0) by (apply Qcpos_neq0; now vm_compute).
  assert (Hside : side <> Q2Qc 0) by (apply Qcpos_neq0; now vm_compute).
  split; [exact (conj Hws (conj HS Hside))|].
  exact (proj2 (proj2
    (@layoutRow_conserves_weights unit row ws side container Hws HS Hside))).
Defined.

(** A row of weight [2] in a container [2] wide and [4] high. *)
Lemma layoutRow_in_portrait_container_witness :
  let row := [item "a" 2] in
  let ws := [Q2Qc (inject_Z 2)] in
  let W := Q2Qc (inject_Z 2) in
  let H := Q2Qc (inject_Z 4) in
  let container := mkContainer zero zero (Fin W) (Fin H) in
  let side := Num.min (cwidth container) (cheight container) in
  (map (@weight unit) row = map Fin ws /\ qsum ws <> Q2Qc 0 /\
   (Q2Qc 0 < W)%Qc /\ (W <= H)%Qc) /\
  total_width (fst (layoutRow row side container)) = cwidth container.
Proof.
  intros row ws W H container side.
  assert (Hws : map (@weight unit) row = map Fin ws) by reflexivity.
  assert (HS : qsum ws <> Q2Qc 0) by (apply Qcpos_neq0; now vm_compute).
  assert (HW : (Q2Qc 0 < W)%Qc) by now vm_compute.
  assert (HWH : (W <= H)%Qc) by now vm_compute.
  split; [exact (conj Hws (conj HS (conj HW HWH)))|].
  exact (proj1
    (@layoutRow_in_portrait_container unit row ws W H zero zero Hws HS HW HWH)).
Defined.

(** A row of weight [2] in a container [4] wide and [2] high. *)
Lemma layoutRow_in_landscape_container_witness :
  let row := [item "a" 2] in
  let ws := [Q2Qc (inject_Z 2)] in
  let W := Q2Qc (inject_Z 4) in
  let H := Q2Qc (inject_Z 2) in
  let container := mkContainer zero zero (Fin W) (Fin H) in
  let side := Num.min (cwidth container) (cheight container) in
  (map (@weight unit) row = map Fin ws /\ (Q2Qc 0 < qsum ws)%Qc /\
   (Q2Qc 0 < H)%Qc /\ (H < W)%Qc) /\
  total_width (fst (layoutRow row side container)) = Fin H.
Proof.
  intros row ws W H container side.
  assert (Hws : map (@weight unit) row = map Fin ws) by reflexivity.
  assert (HS : (Q2Qc 0 < qsum ws)%Qc) by now vm_compute.
  assert (HH : (Q2Qc 0 < H)%Qc) by now vm_compute.
  assert (HHW : (H < W)%Qc) by now vm_compute.
  split; [exact (conj Hws (conj HS (conj HH HHW)))|].
  exact (proj1
    (@layoutRow_in_landscape_container unit row ws W H zero zero Hws HS HH HHW)).
Defined.

(** The row of weights [3] and [1] along a side of [2]. *)
Lemma worst_at_least_one_witness :
  let row := [item "a" 3; item "b" 1] in
  let ws := [Q2Qc (inject_Z 3); Q2Qc (inject_Z 1)] in
  let s := Q2Qc (inject_Z 2) in
  (row <> [] /\ map (@weight unit) row = map Fin ws /\
   Forall (fun w => (Q2Qc 0 < w)%Qc) ws /\ s <> Q2Qc 0) /\
  exists r : Qc, worst row (Fin s) = Fin r /\ (1 <= r)%Qc.
Proof.
  intros row ws s.
  assert (Hrow : row <> []) by discriminate.
  assert (Hws : map (@weight unit) row = map Fin ws) by reflexivity.
  assert (Hpos : Forall (fun w => (Q2Qc 0 < w)%Qc) ws)
    by (repeat constructor; now vm_compute).
  assert (Hs : s <> Q2Qc 0) by (apply Qcpos_neq0; now vm_compute).
  split; [exact (conj Hrow (conj Hws (conj Hpos Hs)))|].
  exact (@worst_at_least_one unit row ws s Hrow Hws Hpos Hs).
Defined.

(** The weights [3, 0, 2] doubled. *)
Lemma treemap_scale_invariant_witness :
  let items := [item "1" 3; item "2" 0; item "3" 2] in
  let k := Q2Qc (inject_Z 2) in
  ((Q2Qc 0 < k)%Qc /\ Forall (fun i => is_finite (weight i) = true) items) /\
  treemap (map (scale_weight (Fin k)) items) (of_Z 500) (of_Z 500)
  = treemap items (of_Z 500) (of_Z 500).
Proof.
  intros items k.
  assert (Hk : (Q2Qc 0 < k)%Qc) by now vm_compute.
  assert (Hfin : Forall (fun i => is_finite (weight i) = true) items)
    by (repeat constructor).
  split; [exact (conj Hk Hfin)|].
  exact (@treemap_scale_invariant unit items k (of_Z 500) (of_Z 500) Hk Hfin).
Defined.

(** One item in a container [400] wide and [300] high. *)
Lemma single_item_rectangle_witness :
  let w := Q2Qc (inject_Z 1) in
  let W := Q2Qc (inject_Z 400) in
  let H := Q2Qc (inject_Z 300) in
  ((Q2Qc 0 < w)%Qc /\ (Q2Qc 0 < W)%Qc /\ (Q2Qc 0 < H)%Qc /\ (H < W)%Qc) /\
  treemap [mkItem "1" (Fin w) (@None unit)] (Fin W) (Fin H)
  = [mkRect "1" zero zero (Fin H) (Fin W) None].
Proof.
  intros w W H.
  assert (Hw : (Q2Qc 0 < w)%Qc) by now vm_compute.
  assert (HW : (Q2Qc 0 < W)%Qc) by now vm_compute.
  assert (HH : (Q2Qc 0 < H)%Qc) by now vm_compute.
  assert (HHW : (H < W)%Qc) by now vm_compute.
  split; [exact (conj Hw (conj HW (conj HH HHW)))|].
  exact (proj2 (proj2
    (@single_item_rectangle unit "1"%string w W H None Hw HW HH)) HHW).
Defined.

(** The weights [2, 0, 3] in a container [500 x 500]: the normalized weights
    [100000] and [150000] are finite. *)
Lemma treemap_orders_by_weight_witness :
  let items := [item "a" 2; item "b" 0; item "c" 3] in
  let valid := filter (fun i => weight i >? zero) items in
  let normalized := normalize valid (of_Z 500 * of_Z 500) in
  Forall (fun i => is_finite (weight i) = true) normalized /\
  StronglySorted (@weight_ge unit) (sort by_weight_desc normalized).
Proof.
  intros items valid normalized.
  assert (Hfin : Forall (fun i => is_finite (weight i) = true) normalized)
    by (repeat constructor).
  split; [exact Hfin|].
  exact (proj2 (proj2
    (@treemap_orders_by_weight unit items (of_Z 500) (of_Z 500))) Hfin).
Defined.

(** One task of high priority in a window [432] wide. *)
Lemma board_single_task_fills_board_witness :
  let task_id := fun t : string * Priority => fst t in
  let task_priority := fun t : string * Priority => snd t in
  let t := ("t1"%string, high) in
  let screenWidth := Q2Qc (inject_Z 432) in
  (Q2Qc (inject_Z 32) < screenWidth)%Qc /\
  board_tiles task_id task_priority [t] (Fin screenWidth)
  = [mkRect "t1" zero zero (boardWidth (Fin screenWidth))
            (boardHeight (Fin screenWidth)) (Some t)].
Proof.
  intros task_id task_priority t screenWidth.
  assert (Hsw : (Q2Qc (inject_Z 32) < screenWidth)%Qc) by now vm_compute.
  split; [exact Hsw|].
  exact (@board_single_task_fills_board _ task_id task_priority t screenWidth Hsw).
Defined.

(** Five completed out of ten. *)
Lemma calculateProgress_positive_total_witness :
  let completed := Q2Qc (inject_Z 5) in
  let total := Q2Qc (inject_Z 10) in
  ((Q2Qc 0 < total)%Qc /\ (Q2Qc 0 <= completed)%Qc /\ (completed <= total)%Qc) /\
  calculateProgress (Fin completed) (Fin total) = Fin (completed / total)%Qc.
Proof.
  intros completed total.
  assert (Ht : (Q2Qc 0 < total)%Qc) by now vm_compute.
  assert (Hc : (Q2Qc 0 <= completed)%Qc) by now vm_compute.
  assert (Hct : (completed <= total)%Qc) by now vm_compute.
  split; [exact (conj Ht (conj Hc Hct))|].
  exact (proj1 (@calculateProgress_positive_total completed total Ht) Hc Hct).
Defined.

(** The text ["Hello World"] with [maxLength] [8]. *)
Lemma truncate_fits_witness :
  Num.le (of_Z 3) (of_Z 8) = true /\
  Num.le (js_length (truncate "Hello World" (of_Z 8))) (of_Z 8) = true.
Proof.
  assert (H3 : Num.le (of_Z 3) (of_Z 8) = true) by reflexivity.
  split; [exact H3|].
  exact (proj1 (@truncate_fits "Hello World"%string (of_Z 8) H3)).
Defined.

(** The text ["Hello"] with [maxLength] [2]. *)
Lemma truncate_exceeds_small_limit_witness :
  let maxLength := Q2Qc (inject_Z 2) in
  ((maxLength < Q2Qc (inject_Z 3))%Qc /\
   Num.le (js_length "Hello") (Fin maxLength) = false) /\
  (Fin maxLength <? js_length (truncate "Hello" (Fin maxLength))) = true.
Proof.
  intros maxLength.
  assert (Hm : (maxLength < Q2Qc (inject_Z 3))%Qc) by now vm_compute.
  assert (E : Num.le (js_length "Hello") (Fin maxLength) = false) by reflexivity.
  split; [exact (conj Hm E)|].
  exact (proj2 (@truncate_exceeds_small_limit "Hello"%string maxLength Hm E)).
Defined.

(** The names ["Alice"] and ["Anton"]. *)
Lemma anonymize_shows_first_character_only_witness :
  ((1 <= String.length "lice")%nat /\ (1 <= String.length "nton")%nat) /\
  anonymizeDisplayName "Alice" = anonymizeDisplayName "Anton".
Proof.
  assert (H1 : (1 <= String.length "lice")%nat) by (cbn; lia).
  assert (H2 : (1 <= String.length "nton")%nat) by (cbn; lia).
  split; [exact (conj H1 H2)|].
  exact (proj2 (proj2 (proj2 anonymize_shows_first_character_only)
                  "A"%char "lice"%string "A"%char "nton"%string H1 H2)
               (conj eq_refl eq_refl)).
Defined.

(** * Inputs that are not validated *)

Section Degenerate.

Context {D : Type}.

Implicit Types (row items : list (TreemapItem D)) (rects : list (TreemapRect D)).

Local Open Scope Qc_scope.

Lemma zero_over_zero_quotient (side : num) :
  (zero / (zero / side))%num = NaN.
Proof.
  unfold zero. destruct side as [s| | |]; try reflexivity.
  cbn [Num.div]. destruct (Qceqb s 0); [reflexivity|].
  replace (0 / s) with (Q2Qc 0) by (unfold Qcdiv; ring).
  reflexivity.
Qed.

Lemma sum_weights_zero row :
  Forall (fun i => weight i = zero) row -> sum_weights row = zero.
Proof.
  unfold sum_weights. induction 1 as [|i row Hi _ IH]; [reflexivity|].
  cbn [fold_left]. rewrite Hi. exact IH.
Qed.

Lemma layoutRow_zero_weights row side container :
  Forall (fun i => weight i = zero) row ->
  Forall (fun r => width r = NaN) (fst (layoutRow row side container)).
Proof.
  intros Hz.
  pose proof (layoutRow_widths row side container) as Hw.
  rewrite (sum_weights_zero Hz) in Hw.
  revert Hw. generalize (fst (layoutRow row side container)). intros rects.
  revert rects. induction Hz as [|i row Hi _ IH]; intros [|r rects]; cbn [map];
    try discriminate; [constructor|].
  intros [= Hr Hrects]. constructor; [|now apply IH].
  rewrite Hr, Hi. apply zero_over_zero_quotient.
Qed.

Lemma squarify_at_zero_weights (s : State (D:=D)) :
  Forall (fun i => weight i = zero) (st_items s) ->
  Forall (fun i => weight i = zero) (st_row s) ->
  Forall (fun r => width r = NaN) (st_rects s) ->
  Forall (fun r => width r = NaN) (squarify_at s).
Proof.
  revert s.
  apply (squarify_at_ind (fun s result =>
    Forall (fun i => weight i = zero) (st_items s) ->
    Forall (fun i => weight i = zero) (st_row s) ->
    Forall (fun r => width r = NaN) (st_rects s) ->
    Forall (fun r => width r = NaN) result)).
  - intros [its rw c rs] result; unfold squarify_step;
      cbn [st_items st_row st_container st_rects].
    destruct its as [|i its].
    + destruct rw as [|r rw]; cbn [is_empty negb].
      * intros [= <-]. auto.
      * destruct (layoutRow _ _ _) as [rowRects c'] eqn:E.
        intros [= <-] _ Hrow Hrects.
        apply Forall_app. split; [assumption|].
        change rowRects with (fst (rowRects, c')). rewrite <- E.
        now apply layoutRow_zero_weights.
    + destruct rw; cbn [is_empty]; [discriminate|].
      destruct (_ || _); [discriminate|].
      destruct (layoutRow _ _ _); discriminate.
  - intros [its rw c rs] s' result; unfold squarify_step;
      cbn [st_items st_row st_container st_rects].
    destruct its as [|i its].
    + destruct (negb _); [destruct (layoutRow _ _ _)|]; discriminate.
    + destruct rw as [|r rw]; cbn [is_empty].
      * intros [= <-]; cbn [st_items st_row st_container st_rects].
        intros IH Hits _ Hrects. inversion Hits; subst.
        apply IH; auto.
      * destruct (_ || _).
        -- intros [= <-]; cbn [st_items st_row st_container st_rects].
           intros IH Hits Hrow Hrects. inversion Hits; subst.
           apply IH; auto.
           change (r :: rw ++ [i]) with ((r :: rw) ++ [i]).
           apply Forall_app. split; auto.
        -- destruct (layoutRow _ _ _) as [rowRects c'] eqn:E.
           intros [= <-]; cbn [st_items st_row st_container st_rects].
           intros IH Hits Hrow Hrects. apply IH; auto.
           apply Forall_app. split; [assumption|].
           change rowRects with (fst (rowRects, c')). rewrite <- E.
           now apply layoutRow_zero_weights.
Qed.

(** X17.  The dimensions of the container are not validated.  When the area
    [containerWidth * containerHeight] is [0] and the weights are finite,
    every item of positive weight still gets a rectangle, and the width of
    every rectangle is [NaN]. *)
Theorem treemap_zero_area_gives_nan_widths items (W H : num) :
  Forall (fun i => is_finite (weight i) = true) items ->
  (W * H)%num = zero ->
  List.length (treemap items W H)
  = List.length (filter (fun i => (weight i >? zero)%num) items) /\
  Forall (fun r => width r = NaN) (treemap items W H).
Proof.
  intros Hfin Harea. split.
  { rewrite <- (length_map rect_key), <- (length_map item_key).
    apply Permutation_length, treemap_keys. }
  unfold treemap.
  destruct items as [|i0 items0]; [constructor|]. cbn [is_empty].
  set (valid := filter _ (i0 :: items0)).
  assert (Hvfin : Forall (fun i => is_finite (weight i) = true) valid).
  { apply Forall_forall. intros i Hi. apply filter_In in Hi.
    rewrite Forall_forall in Hfin. now apply Hfin. }
  destruct valid as [|v valid0] eqn:Ev; [constructor|]. cbn [is_empty].
  rewrite <- Ev in *.
  destruct (finite_weights Hvfin) as [ws Hws].
  assert (HT : qsum ws <> 0).
  { apply Qcpos_neq0, qsum_pos.
    - intros ->. rewrite Ev in Hws. discriminate.
    - apply (@positive_weights D valid ws Hws). apply filter_positive. }
  apply (squarify_at_zero_weights (mkState _ [] _ []));
    cbn [st_items st_row st_rects]; [|constructor|constructor].
  apply (Permutation_Forall (Permutation_sym (sort_perm _ _))).
  rewrite Harea. unfold normalize.
  rewrite (@sum_weights_finite D valid ws Hws).
  apply Forall_forall. intros i Hi. apply in_map_iff in Hi.
  destruct Hi as (j & <- & Hj). cbn [weight].
  rewrite Forall_forall in Hvfin. specialize (Hvfin j Hj).
  destruct (weight j) as [w| | |]; try discriminate.
  rewrite div_finite by assumption. unfold zero. cbn [Num.mul].
  f_equal. ring.
Qed.

Lemma sum_from_infinity items :
  Forall (fun i => weight i = PInf \/ is_finite (weight i) = true) items ->
  fold_left (fun acc i => (acc + weight i)%num) items PInf = PInf.
Proof.
  induction 1 as [|i items Hi _ IH]; [reflexivity|].
  cbn [fold_left]. destruct Hi as [-> | Hi]; [exact IH|].
  destruct (weight i); try discriminate. exact IH.
Qed.

Lemma sum_with_infinity items (a : Qc) :
  Forall (fun i => weight i = PInf \/ is_finite (weight i) = true) items ->
  Exists (fun i => weight i = PInf) items ->
  fold_left (fun acc i => (acc + weight i)%num) items (Fin a) = PInf.
Proof.
  intros Hall Hex. revert a. induction Hall as [|i items Hi Hall IH]; intros a.
  - inversion Hex.
  - cbn [fold_left]. destruct Hi as [E | Hi].
    + rewrite E. cbn [Num.add]. now apply sum_from_infinity.
    + inversion Hex as [? ? E | ? ? Hex']; subst.
      * rewrite E in Hi. discriminate.
      * destruct (weight i); try discriminate. cbn [Num.add]. now apply IH.
Qed.

Lemma positive_finite_or_infinite items :
  Forall (fun i => (weight i >? zero)%num = true) items ->
  Forall (fun i => weight i = PInf \/ is_finite (weight i) = true) items.
Proof.
  apply Forall_impl. intros i Hi.
  destruct (weight i); try discriminate; [now right | now left].
Qed.

(** X18.  An infinite weight is not filtered out: [+Infinity > 0] holds.
    When a list of weights greater than zero, as [treemap] passes to
    [normalize], holds an infinite one, the total is [+Infinity], and
    [normalize] to a finite area gives [NaN] to every item of infinite weight
    and [0] to every other item. *)
Theorem normalize_with_infinite_weight items (area : Qc) :
  Forall (fun i => (weight i >? zero)%num = true) items ->
  Exists (fun i => weight i = PInf) items ->
  (PInf >? zero)%num = true /\
  sum_weights items = PInf /\
  map (@weight D) (normalize items (Fin area))
  = map (fun i => if Num.eqb (weight i) PInf then NaN else zero) items.
Proof.
  intros Hpos Hex. pose proof (positive_finite_or_infinite Hpos) as Hall.
  split; [|split].
  - reflexivity.
  - now apply sum_with_infinity.
  - unfold normalize. unfold sum_weights, zero at 1.
    rewrite (sum_with_infinity 0 Hall Hex), map_map.
    apply map_ext_in. intros i Hi. cbn [weight].
    rewrite Forall_forall in Hall. destruct (Hall i Hi) as [-> | Hf].
    + reflexivity.
    + destruct (weight i) as [w| | |]; try discriminate.
      cbn. unfold zero. f_equal. ring.
Qed.

End Degenerate.

(** The weights [3, 0, 2] in a container of width [0]. *)
Lemma treemap_zero_area_gives_nan_widths_witness :
  let items := [item "1" 3; item "2" 0; item "3" 2] in
  (Forall (fun i => is_finite (weight i) = true) items /\
   of_Z 0 * of_Z 500 = zero) /\
  Forall (fun r => width r = NaN) (treemap items (of_Z 0) (of_Z 500)).
Proof.
  intros items.
  assert (Hfin : Forall (fun i => is_finite (weight i) = true) items)
    by (repeat constructor).
  assert (Harea : of_Z 0 * of_Z 500 = zero)
    by (apply num_eqb_eq; vm_compute; reflexivity).
  split; [exact (conj Hfin Harea)|].
  exact (proj2 (@treemap_zero_area_gives_nan_widths unit items
                  (of_Z 0) (of_Z 500) Hfin Harea)).
Defined.

(** One infinite weight beside the weight [1]. *)
Lemma normalize_with_infinite_weight_witness :
  let items := [mkItem "a" PInf (@None unit); item "b" 1] in
  (Forall (fun i => (weight i >? zero) = true) items /\
   Exists (fun i => weight i = PInf) items) /\
  map (@weight unit) (normalize items (Fin (Q2Qc (inject_Z 4)))) = [NaN; zero].
Proof.
  intros items.
  assert (Hpos : Forall (fun i => (weight i >? zero) = true) items)
    by (repeat constructor).
  assert (Hex : Exists (fun i => weight i = PInf) items) by now left.
  split; [exact (conj Hpos Hex)|].
  exact (proj2 (proj2 (@normalize_with_infinite_weight unit items
                         (Q2Qc (inject_Z 4)) Hpos Hex))).
Defined.
